(** * Physics-Builder-3d: structure generator, excitation and drag control

    A shallow embedding of the TypeScript sources

      - [src/components/Building.tsx]  (PhysicsBox, StorySimple,
        StoryApartment, StoryBank, Building, and the drag provider that is
        appended to it),
      - [src/components/Scene.tsx]     (Floor),
      - [src/App.tsx]                  (handleRebuild, handleConfigChange,
        handleEarthquake and the quake buttons),

    followed by the properties of the specification that hold of them.

    Conventions of the embedding.

    - A JavaScript [number] is an exact rational ([Q]); a decimal literal of
      the source is the same decimal here.  Counters of [for] loops and story
      counts are [nat].  Where two computed numbers are compared, the
      comparison is [Qeq] ([==]); numbers that the code copies are compared
      with [=].
    - A React component is the function from its props to the list of
      elements it renders; a [for] loop that pushes elements is a
      [flat_map] over the range of its counter.
    - React state ([useState]) and refs ([useRef]) are fields of a record;
      an event handler is a function from the record to the record.
    - [Math.random()] is an explicit argument, a number [r] with
      [0 <= r < 1]; [setTimeout] adds an entry to the table of pending
      timers, [clearTimeout] deletes one.
    - A store into a [Float32Array] rounds the number with [Math_fround],
      a parameter; a cell that holds [NaN] is [None]. *)

From stdpp Require Import gmap strings list.
From Stdlib Require Import QArith Qminmax Qabs Qround Lqa Lia.

#[local] Open Scope Q_scope.

(** * Numbers and vectors *)

Abbreviation Vec3 := (Q * Q * Q)%type.

(** A loop counter used in arithmetic. *)
Definition num (n : nat) : Q := inject_Z (Z.of_nat n).

(** [Math.PI], the binary64 number nearest to the circle constant. *)
Definition Math_PI : Q := (884279719003555 # 281474976710656).

(** [for (let i = 0; i < n; i++) body(i)], where [body] pushes elements. *)
Definition forRange {A : Type} (n : nat) (body : nat -> list A) : list A :=
  flat_map body (seq 0 n).

(** * Building.tsx: dimensions *)

Definition PILLAR_HEIGHT : Q := 3.5.
Definition SLAB_HEIGHT : Q := 0.4.

Definition PILLAR_WIDTH_SIMPLE : Q := 0.5.
Definition SLAB_WIDTH_SIMPLE : Q := 5.0.
Definition OFFSET_SIMPLE : Q := 2.2.

Definition PILLAR_WIDTH_APARTMENT : Q := 0.7.
Definition GRID_SIZE : Q := 4.0.

Definition BANK_GRID : Q := 4.0.
Definition PILLAR_WIDTH_BANK : Q := 0.6.
Definition PILLAR_PHYSICS_WIDTH_BANK : Q := 0.8.

Definition BEAM_HEIGHT_KINDA_BIG : Q := 0.4.

Definition GAP : Q := 0.05.

Definition WALL_THICKNESS : Q := 0.4.
Definition WINDOW_THICKNESS : Q := 0.15.
Definition WALL_LENGTH_BANK_VISUAL : Q := BANK_GRID - PILLAR_WIDTH_BANK - GAP.
Definition WALL_LENGTH_APT : Q := GRID_SIZE - PILLAR_WIDTH_APARTMENT - GAP.

(** * Building.tsx: the geometry catalog *)

Inductive Shape : Type :=
| BoxGeometry (width height depth : Q)
| TorusGeometry (radius tube : Q) (radialSegments tubularSegments : nat) (arc : Q)
| CylinderGeometry (radiusTop radiusBottom height : Q) (radialSegments : nat).

(** The geometries that the module creates once and shares. *)
Inductive Geometry : Type :=
| pillarSimpleGeometry | pillarApartmentGeometry | pillarBankGeometry
| slabSimpleGeometry | slabApartmentGeometry | slabBankGeometry
| wallBankGeometryX | wallBankGeometryZ
| windowBankGeometryX | windowBankGeometryZ
| wallApartmentGeometryX | wallApartmentGeometryZ
| debrisGeometry
| bentSteelGeometry | xBraceGeometry | xBraceBankGeometry | ropeVerticalGeometry.

Definition shapeOf (g : Geometry) : Shape :=
  match g with
  | pillarSimpleGeometry => BoxGeometry PILLAR_WIDTH_SIMPLE PILLAR_HEIGHT PILLAR_WIDTH_SIMPLE
  | pillarApartmentGeometry => BoxGeometry PILLAR_WIDTH_APARTMENT PILLAR_HEIGHT PILLAR_WIDTH_APARTMENT
  | pillarBankGeometry => BoxGeometry PILLAR_WIDTH_BANK PILLAR_HEIGHT PILLAR_WIDTH_BANK
  | slabSimpleGeometry => BoxGeometry SLAB_WIDTH_SIMPLE SLAB_HEIGHT SLAB_WIDTH_SIMPLE
  | slabApartmentGeometry => BoxGeometry (GRID_SIZE - GAP) BEAM_HEIGHT_KINDA_BIG (GRID_SIZE - GAP)
  | slabBankGeometry => BoxGeometry (BANK_GRID - GAP) BEAM_HEIGHT_KINDA_BIG (BANK_GRID - GAP)
  | wallBankGeometryX => BoxGeometry WALL_LENGTH_BANK_VISUAL PILLAR_HEIGHT WALL_THICKNESS
  | wallBankGeometryZ => BoxGeometry WALL_THICKNESS PILLAR_HEIGHT WALL_LENGTH_BANK_VISUAL
  | windowBankGeometryX => BoxGeometry WALL_LENGTH_BANK_VISUAL PILLAR_HEIGHT WINDOW_THICKNESS
  | windowBankGeometryZ => BoxGeometry WINDOW_THICKNESS PILLAR_HEIGHT WALL_LENGTH_BANK_VISUAL
  | wallApartmentGeometryX => BoxGeometry WALL_LENGTH_APT PILLAR_HEIGHT WALL_THICKNESS
  | wallApartmentGeometryZ => BoxGeometry WALL_THICKNESS PILLAR_HEIGHT WALL_LENGTH_APT
  | debrisGeometry => BoxGeometry 0.5 0.5 0.5
  | bentSteelGeometry => TorusGeometry 0.3 0.08 4 4 Math_PI
  | xBraceGeometry => CylinderGeometry 0.1 0.1 (GRID_SIZE * 1.2) 4
  | xBraceBankGeometry => CylinderGeometry 0.1 0.1 5.4 4
  | ropeVerticalGeometry => CylinderGeometry 0.04 0.04 PILLAR_HEIGHT 4
  end.

Inductive Material : Type :=
| pillarMaterial | slabMaterial | pillarSimpleMaterial | slabSimpleMaterial
| bankWallMaterial | debrisMaterial | glassMaterial | basementMaterial
| ropeMaterial.

Definition materialColor (m : Material) : string :=
  match m with
  | pillarMaterial => "#64748b"
  | slabMaterial => "#cbd5e1"
  | pillarSimpleMaterial => "#9ca3af"
  | slabSimpleMaterial => "#e5e7eb"
  | bankWallMaterial => "#94a3b8"
  | debrisMaterial => "#d97706"
  | glassMaterial => "#93c5fd"
  | basementMaterial => "#334155"
  | ropeMaterial => "#334155"
  end.

(** * Building.tsx: elements *)

(** A visual-only child of a physics box: a mesh, or a group of them. *)
Inductive MeshGeometry : Type :=
| shared (g : Geometry)
| cylinderGeometry (radiusTop radiusBottom height : Q) (radialSegments : nat).

#[local] Set Warnings "-register-all".
Inductive Ornament : Type :=
| mesh (position rotation : option Vec3) (material : Material) (geometry : MeshGeometry)
| group (position rotation : option Vec3) (children : list Ornament).

(** The React key of an element: a prefix and the three numbers the
    template string appends to it. *)
Record ElementKey : Type := mkKey
  { prefix : string; keyLevel : nat; keyX : nat; keyZ : nat }.

(** The props of one [<Draggable><PhysicsBox .../></Draggable>]. *)
Record PhysicsBoxProps : Type := mkBox
  { key : option ElementKey;
    position : Vec3;
    args : Vec3;
    geometry : Geometry;
    material : Material;
    mass : Q;
    linearDamping : option Q;
    angularDamping : option Q;
    castShadow : option bool;
    children : list Ornament }.

(** What [PhysicsBox] hands to [useBox]: the rigid body. *)
Record BoxBody : Type := mkBody
  { bodyMass : Q;
    bodyArgs : Vec3;
    bodyPosition : Vec3;
    bodyLinearDamping : Q;
    bodyAngularDamping : Q }.

Definition PhysicsBox (p : PhysicsBoxProps) : BoxBody :=
  {| bodyMass := mass p;
     bodyArgs := args p;
     bodyPosition := position p;
     bodyLinearDamping := default 0.01 (linearDamping p);
     bodyAngularDamping := default 0.01 (angularDamping p) |}.

Inductive BuildingType : Type := simple | apartment | bank.

(** * Building.tsx: the three story components *)

Definition StorySimple (level : nat) (yPos : Q) : list PhysicsBoxProps :=
  let pillarY := yPos + PILLAR_HEIGHT / 2 in
  let slabY := yPos + PILLAR_HEIGHT + SLAB_HEIGHT / 2 in
  let o := OFFSET_SIMPLE in
  let pillarMass := 0.5 in
  let slabMass := 1.0 in
  let pillar (x z : Q) :=
    {| key := None;
       position := (x, pillarY, z);
       args := (PILLAR_WIDTH_SIMPLE, PILLAR_HEIGHT, PILLAR_WIDTH_SIMPLE);
       geometry := pillarSimpleGeometry;
       material := pillarSimpleMaterial;
       mass := pillarMass;
       linearDamping := None; angularDamping := None;
       castShadow := None; children := [] |} in
  [ pillar o o; pillar (- o) o; pillar o (- o); pillar (- o) (- o);
    {| key := None;
       position := (0, slabY, 0);
       args := (SLAB_WIDTH_SIMPLE, SLAB_HEIGHT, SLAB_WIDTH_SIMPLE);
       geometry := slabSimpleGeometry;
       material := slabSimpleMaterial;
       mass := slabMass;
       linearDamping := None; angularDamping := None;
       castShadow := None; children := [] |} ].

Definition StoryApartment (level : nat) (yPos : Q) (roomsX roomsZ : nat)
  : list PhysicsBoxProps :=
  let isBasement := Nat.eqb level 0 in
  let pillarY := yPos + PILLAR_HEIGHT / 2 in
  let totalWidth := num roomsX * GRID_SIZE in
  let totalDepth := num roomsZ * GRID_SIZE in
  let startX := - totalWidth / 2 in
  let startZ := - totalDepth / 2 in
  let pillarMass := if isBasement then 50.0 else 20.0 in
  let slabMass := if isBasement then 50.0 else 20.0 in
  let wallMass := if isBasement then 50.0 else 20.0 in
  let damping := 0.05 in
  let currentPillarMat := if isBasement then basementMaterial else pillarMaterial in
  let currentWallMat := if isBasement then basementMaterial else bankWallMaterial in
  (* 1. pillars *)
  forRange (S roomsX) (fun x => forRange (S roomsZ) (fun z =>
    let px := startX + num x * GRID_SIZE in
    let pz := startZ + num z * GRID_SIZE in
    [ {| key := Some (mkKey "p-" level x z);
         position := (px, pillarY, pz);
         args := (PILLAR_WIDTH_APARTMENT, PILLAR_HEIGHT, PILLAR_WIDTH_APARTMENT);
         geometry := pillarApartmentGeometry;
         material := currentPillarMat;
         mass := pillarMass;
         linearDamping := Some damping; angularDamping := Some damping;
         castShadow := None; children := [] |} ]))
  (* 2. walls along the X axis *)
  ++ forRange roomsX (fun x => forRange (S roomsZ) (fun z =>
    let wx := startX + num x * GRID_SIZE + GRID_SIZE / 2 in
    let wz := startZ + num z * GRID_SIZE in
    [ {| key := Some (mkKey "apt-wx-" level x z);
         position := (wx, pillarY, wz);
         args := (WALL_LENGTH_APT, PILLAR_HEIGHT, WALL_THICKNESS);
         geometry := wallApartmentGeometryX;
         material := currentWallMat;
         mass := wallMass;
         linearDamping := Some damping; angularDamping := Some damping;
         castShadow := None; children := [] |} ]))
  (* walls along the Z axis *)
  ++ forRange (S roomsX) (fun x => forRange roomsZ (fun z =>
    let wx := startX + num x * GRID_SIZE in
    let wz := startZ + num z * GRID_SIZE + GRID_SIZE / 2 in
    [ {| key := Some (mkKey "apt-wz-" level x z);
         position := (wx, pillarY, wz);
         args := (WALL_THICKNESS, PILLAR_HEIGHT, WALL_LENGTH_APT);
         geometry := wallApartmentGeometryZ;
         material := currentWallMat;
         mass := wallMass;
         linearDamping := Some damping; angularDamping := Some damping;
         castShadow := None; children := [] |} ]))
  (* 3. slabs *)
  ++ forRange roomsX (fun x => forRange roomsZ (fun z =>
    let sx := startX + num x * GRID_SIZE + GRID_SIZE / 2 in
    let sz := startZ + num z * GRID_SIZE + GRID_SIZE / 2 in
    let currentSlabHeight := BEAM_HEIGHT_KINDA_BIG in
    let currentGeometry := slabApartmentGeometry in
    let slabY := yPos + PILLAR_HEIGHT + currentSlabHeight / 2 in
    [ {| key := Some (mkKey "s-" level x z);
         position := (sx, slabY, sz);
         args := (GRID_SIZE - GAP, currentSlabHeight, GRID_SIZE - GAP);
         geometry := currentGeometry;
         material := if isBasement then basementMaterial else slabMaterial;
         mass := slabMass;
         linearDamping := Some damping; angularDamping := Some damping;
         castShadow := None; children := [] |} ]))
  (* 4. debris cubes inside the rooms, skipped for the basement *)
  ++ (if negb isBasement then
        forRange roomsX (fun x => forRange roomsZ (fun z =>
          let dx := startX + num x * GRID_SIZE + GRID_SIZE / 2 in
          let dz := startZ + num z * GRID_SIZE + GRID_SIZE / 2 in
          let dy := yPos + 0.5 in
          [ {| key := Some (mkKey "deb-" level x z);
               position := (dx, dy, dz);
               args := (0.5, 0.5, 0.5);
               geometry := debrisGeometry;
               material := debrisMaterial;
               mass := 5.0;
               linearDamping := Some 0.1; angularDamping := Some 0.1;
               castShadow := Some false; children := [] |} ]))
      else []).

Definition StoryBank (level : nat) (yPos : Q) : list PhysicsBoxProps :=
  let isBasement := Nat.eqb level 0 in
  let GRID := BANK_GRID in
  let ROOMS_X := 4%nat in
  let ROOMS_Z := 4%nat in
  let totalWidth := num ROOMS_X * GRID in
  let totalDepth := num ROOMS_Z * GRID in
  let startX := - totalWidth / 2 in
  let startZ := - totalDepth / 2 in
  let pillarY := yPos + PILLAR_HEIGHT / 2 in
  let slabY := yPos + PILLAR_HEIGHT + BEAM_HEIGHT_KINDA_BIG / 2 in
  let mass_ := if isBasement then 50.0 else 20.0 in
  let damping := 0.05 in
  let WALL_LENGTH_BANK_PHYSICS := BANK_GRID - PILLAR_PHYSICS_WIDTH_BANK - GAP in
  let xBrace :=
    [ mesh (Some (GRID / 2, 0, 0)) (Some (0, 0, Math_PI / 4)) ropeMaterial (shared xBraceBankGeometry);
      mesh (Some (GRID / 2, 0, 0)) (Some (0, 0, - Math_PI / 4)) ropeMaterial (shared xBraceBankGeometry) ] in
  (* 1. pillars, with the physics box wider than the visual one *)
  forRange (S ROOMS_X) (fun x => forRange (S ROOMS_Z) (fun z =>
    let px := startX + num x * GRID in
    let pz := startZ + num z * GRID in
    let pOffset := PILLAR_WIDTH_BANK / 2 + 0.05 in
    [ {| key := Some (mkKey "bank-p-" level x z);
         position := (px, pillarY, pz);
         args := (PILLAR_PHYSICS_WIDTH_BANK, PILLAR_HEIGHT, PILLAR_PHYSICS_WIDTH_BANK);
         geometry := pillarBankGeometry;
         material := if isBasement then basementMaterial else pillarMaterial;
         mass := mass_;
         linearDamping := Some damping; angularDamping := Some damping;
         castShadow := None;
         children :=
           [ group None None
               [ mesh (Some (pOffset, 0, pOffset)) None ropeMaterial (shared ropeVerticalGeometry);
                 mesh (Some (- pOffset, 0, pOffset)) None ropeMaterial (shared ropeVerticalGeometry);
                 mesh (Some (pOffset, 0, - pOffset)) None ropeMaterial (shared ropeVerticalGeometry);
                 mesh (Some (- pOffset, 0, - pOffset)) None ropeMaterial (shared ropeVerticalGeometry) ] ]
           ++ (if isBasement && Nat.ltb x ROOMS_X then [ group None None xBrace ] else [])
           ++ (if isBasement && Nat.ltb z ROOMS_Z
               then [ group None (Some (0, Math_PI / 2, 0)) xBrace ] else []) |} ]))
  (* 2. walls inside, windows outside: X axis *)
  ++ forRange ROOMS_X (fun x => forRange (S ROOMS_Z) (fun z =>
    let wx := startX + num x * GRID + GRID / 2 in
    let wz := startZ + num z * GRID in
    let isOutside := Nat.eqb z 0 || Nat.eqb z ROOMS_Z in
    if isOutside then
      [ {| key := Some (mkKey "bank-win-x-" level x z);
           position := (wx, pillarY, wz);
           args := (WALL_LENGTH_BANK_PHYSICS, PILLAR_HEIGHT, WINDOW_THICKNESS);
           geometry := windowBankGeometryX;
           material := glassMaterial;
           mass := 5.0;
           linearDamping := Some 0.1; angularDamping := Some 0.1;
           castShadow := None; children := [] |} ]
    else
      [ {| key := Some (mkKey "bank-wall-x-" level x z);
           position := (wx, pillarY, wz);
           args := (WALL_LENGTH_BANK_PHYSICS, PILLAR_HEIGHT, WALL_THICKNESS);
           geometry := wallBankGeometryX;
           material := bankWallMaterial;
           mass := 20.0;
           linearDamping := Some damping; angularDamping := Some damping;
           castShadow := None; children := [] |} ]))
  (* Z axis *)
  ++ forRange (S ROOMS_X) (fun x => forRange ROOMS_Z (fun z =>
    let wx := startX + num x * GRID in
    let wz := startZ + num z * GRID + GRID / 2 in
    let isOutside := Nat.eqb x 0 || Nat.eqb x ROOMS_X in
    if isOutside then
      [ {| key := Some (mkKey "bank-win-z-" level x z);
           position := (wx, pillarY, wz);
           args := (WINDOW_THICKNESS, PILLAR_HEIGHT, WALL_LENGTH_BANK_PHYSICS);
           geometry := windowBankGeometryZ;
           material := glassMaterial;
           mass := 5.0;
           linearDamping := Some 0.1; angularDamping := Some 0.1;
           castShadow := None; children := [] |} ]
    else
      [ {| key := Some (mkKey "bank-wall-z-" level x z);
           position := (wx, pillarY, wz);
           args := (WALL_THICKNESS, PILLAR_HEIGHT, WALL_LENGTH_BANK_PHYSICS);
           geometry := wallBankGeometryZ;
           material := bankWallMaterial;
           mass := 20.0;
           linearDamping := Some damping; angularDamping := Some damping;
           castShadow := None; children := [] |} ]))
  (* 3. slabs *)
  ++ forRange ROOMS_X (fun x => forRange ROOMS_Z (fun z =>
    let sx := startX + num x * GRID + GRID / 2 in
    let sz := startZ + num z * GRID + GRID / 2 in
    [ {| key := Some (mkKey "bank-s-" level x z);
         position := (sx, slabY, sz);
         args := (GRID - GAP, BEAM_HEIGHT_KINDA_BIG, GRID - GAP);
         geometry := slabBankGeometry;
         material := if isBasement then basementMaterial else slabMaterial;
         mass := mass_;
         linearDamping := Some damping; angularDamping := Some damping;
         castShadow := None;
         children :=
           [ group (Some (0, - BEAM_HEIGHT_KINDA_BIG / 2 - 0.2, 0)) None
               [ mesh None (Some (0, 0, Math_PI / 2)) ropeMaterial
                   (cylinderGeometry 0.25 0.25 (GRID - 0.5) 4);
                 mesh None (Some (Math_PI / 2, 0, 0)) ropeMaterial
                   (cylinderGeometry 0.25 0.25 (GRID - 0.5) 4) ];
             group None None
               [ mesh (Some (0, BEAM_HEIGHT_KINDA_BIG / 2 + 0.1, 0))
                   (Some (Math_PI / 2, Math_PI / 4, 0)) ropeMaterial (shared bentSteelGeometry);
                 mesh (Some (GRID / 2 - 0.2, 0, 0)) (Some (0, 0, Math_PI / 2))
                   ropeMaterial (shared bentSteelGeometry);
                 mesh (Some (- GRID / 2 + 0.2, 0, 0)) (Some (0, 0, Math_PI / 2))
                   ropeMaterial (shared bentSteelGeometry);
                 mesh (Some (0, 0, GRID / 2 - 0.2)) (Some (Math_PI / 2, 0, 0))
                   ropeMaterial (shared bentSteelGeometry);
                 mesh (Some (0, 0, - GRID / 2 + 0.2)) (Some (Math_PI / 2, 0, 0))
                   ropeMaterial (shared bentSteelGeometry) ] ] |} ])).

(** * Building.tsx: the building *)

Definition getGridDimensions : nat * nat := (3%nat, 3%nat).

(** The loop of [getFloorY] adds one story height per level below. *)
Definition getFloorY (type : BuildingType) (levelIndex : nat) : Q :=
  fold_left
    (fun y _ =>
       match type with
       | bank | apartment => y + (PILLAR_HEIGHT + BEAM_HEIGHT_KINDA_BIG)
       | simple => y + (PILLAR_HEIGHT + SLAB_HEIGHT)
       end)
    (seq 0 levelIndex) 0.

Definition totalLevels (stories : nat) (type : BuildingType) : nat :=
  match type with
  | bank | apartment => (stories + 1)%nat
  | simple => stories
  end.

(** The callback of [Array.from({ length: totalLevels }).map]: the story
    rendered for level [i]. *)
Definition Story (type : BuildingType) (i : nat) : list PhysicsBoxProps :=
  let dims := getGridDimensions in
  let yPos := getFloorY type i in
  match type with
  | bank => StoryBank i yPos
  | simple => StorySimple i yPos
  | apartment => StoryApartment i yPos (fst dims) (snd dims)
  end.

(** The stories that [Building] renders, one list of elements per level. *)
Definition Building (stories : nat) (type : BuildingType) : list (list PhysicsBoxProps) :=
  map (Story type) (seq 0 (totalLevels stories type)).

(** The structure generator of the specification: the flat sequence of
    body placements of a building. *)
Definition generate (type : BuildingType) (storyCount : nat) : list PhysicsBoxProps :=
  concat (Building storyCount type).

(** ** Reading the placements *)

Inductive Role : Type := Pillar | Wall | Window | Slab | Debris.

(** The part an element plays, read off the geometry it is drawn with. *)
Definition role (p : PhysicsBoxProps) : option Role :=
  match geometry p with
  | pillarSimpleGeometry | pillarApartmentGeometry | pillarBankGeometry => Some Pillar
  | slabSimpleGeometry | slabApartmentGeometry | slabBankGeometry => Some Slab
  | wallBankGeometryX | wallBankGeometryZ
  | wallApartmentGeometryX | wallApartmentGeometryZ => Some Wall
  | windowBankGeometryX | windowBankGeometryZ => Some Window
  | debrisGeometry => Some Debris
  | _ => None
  end.

Definition Role_eqb (a b : Role) : bool :=
  match a, b with
  | Pillar, Pillar | Wall, Wall | Window, Window | Slab, Slab | Debris, Debris => true
  | _, _ => false
  end.

Definition hasRole (r : Role) (p : PhysicsBoxProps) : bool :=
  match role p with
  | Some r' => Role_eqb r r'
  | None => false
  end.

Definition countRole (r : Role) (l : list PhysicsBoxProps) : nat :=
  length (List.filter (hasRole r) l).

(** Level 0 is the basement for the two types that have one. *)
Definition isBasementLevel (type : BuildingType) (i : nat) : bool :=
  match type with
  | simple => false
  | apartment | bank => Nat.eqb i 0
  end.

(** * App.tsx: state *)

Record BuildingConfig : Type := mkConfig
  { stories : nat; type : BuildingType }.

(** The closures handed to [setTimeout]. *)
Inductive TimerCallback : Type :=
| startSWave (power sWaveDuration : Q)
    (* () => { setQuakePower(power); playEarthquakeSound(sWaveDuration, power) } *)
| endQuake.
    (* () => { setIsQuaking(false) } *)

(** A pending timer of the host: it runs [callback] once, [delay]
    milliseconds after [setTimeout] armed it. *)
Record Timer : Type := mkTimer
  { delay : Q; callback : TimerCallback }.

(** The audio context that [playEarthquakeSound] opens, with the length of
    its noise buffer and the plateau of its gain envelope.  The samples of
    the buffer and the filter are not represented. *)
Record Sound : Type := mkSound
  { durationSec : Q; volume : Q }.

Record AppState : Type := mkApp
  { (* useState *)
    config : BuildingConfig;
    resetKey : nat;
    isQuaking : bool;
    quakePower : Q;
    isPaused : bool;
    customDuration : Q;
    (* useRef *)
    timeoutRef : option positive;
    pWaveTimeoutRef : option positive;
    audioContextRef : option Sound;
    (* the host: pending timers, the next timer id, window.AudioContext *)
    timers : gmap positive Timer;
    nextTimer : positive;
    hasAudioContext : bool }.

Definition initialApp (audio : bool) : AppState :=
  {| config := {| stories := 4; type := simple |};
     resetKey := 0;
     isQuaking := false;
     quakePower := 1;
     isPaused := false;
     customDuration := 15;
     timeoutRef := None;
     pWaveTimeoutRef := None;
     audioContextRef := None;
     timers := ∅;
     nextTimer := 1%positive;
     hasAudioContext := audio |}.

(** ** The host's timers *)

Definition setTimers (t : gmap positive Timer) (s : AppState) : AppState :=
  {| config := config s; resetKey := resetKey s; isQuaking := isQuaking s;
     quakePower := quakePower s; isPaused := isPaused s;
     customDuration := customDuration s;
     timeoutRef := timeoutRef s; pWaveTimeoutRef := pWaveTimeoutRef s;
     audioContextRef := audioContextRef s;
     timers := t; nextTimer := nextTimer s;
     hasAudioContext := hasAudioContext s |}.

Definition setNextTimer (n : positive) (s : AppState) : AppState :=
  {| config := config s; resetKey := resetKey s; isQuaking := isQuaking s;
     quakePower := quakePower s; isPaused := isPaused s;
     customDuration := customDuration s;
     timeoutRef := timeoutRef s; pWaveTimeoutRef := pWaveTimeoutRef s;
     audioContextRef := audioContextRef s;
     timers := timers s; nextTimer := n;
     hasAudioContext := hasAudioContext s |}.

(** [setTimeout(cb, ms)]: a fresh id, which is positive (truthy). *)
Definition setTimeout (cb : TimerCallback) (ms : Q) (s : AppState) : positive * AppState :=
  let id := nextTimer s in
  (id, setNextTimer (Pos.succ id) (setTimers (<[id := mkTimer ms cb]> (timers s)) s)).

(** [clearTimeout(id)]; an id that is no longer pending is ignored. *)
Definition clearTimeout (id : positive) (s : AppState) : AppState :=
  setTimers (delete id (timers s)) s.

(** [if (ref.current) clearTimeout(ref.current)] *)
Definition clearIfSet (ref : option positive) (s : AppState) : AppState :=
  match ref with
  | Some id => clearTimeout id s
  | None => s
  end.

(** ** Setters *)

Definition setConfig (c : BuildingConfig) (s : AppState) : AppState :=
  {| config := c; resetKey := resetKey s; isQuaking := isQuaking s;
     quakePower := quakePower s; isPaused := isPaused s;
     customDuration := customDuration s;
     timeoutRef := timeoutRef s; pWaveTimeoutRef := pWaveTimeoutRef s;
     audioContextRef := audioContextRef s;
     timers := timers s; nextTimer := nextTimer s;
     hasAudioContext := hasAudioContext s |}.

Definition setResetKey (f : nat -> nat) (s : AppState) : AppState :=
  {| config := config s; resetKey := f (resetKey s); isQuaking := isQuaking s;
     quakePower := quakePower s; isPaused := isPaused s;
     customDuration := customDuration s;
     timeoutRef := timeoutRef s; pWaveTimeoutRef := pWaveTimeoutRef s;
     audioContextRef := audioContextRef s;
     timers := timers s; nextTimer := nextTimer s;
     hasAudioContext := hasAudioContext s |}.

Definition setIsQuaking (b : bool) (s : AppState) : AppState :=
  {| config := config s; resetKey := resetKey s; isQuaking := b;
     quakePower := quakePower s; isPaused := isPaused s;
     customDuration := customDuration s;
     timeoutRef := timeoutRef s; pWaveTimeoutRef := pWaveTimeoutRef s;
     audioContextRef := audioContextRef s;
     timers := timers s; nextTimer := nextTimer s;
     hasAudioContext := hasAudioContext s |}.

Definition setQuakePower (p : Q) (s : AppState) : AppState :=
  {| config := config s; resetKey := resetKey s; isQuaking := isQuaking s;
     quakePower := p; isPaused := isPaused s;
     customDuration := customDuration s;
     timeoutRef := timeoutRef s; pWaveTimeoutRef := pWaveTimeoutRef s;
     audioContextRef := audioContextRef s;
     timers := timers s; nextTimer := nextTimer s;
     hasAudioContext := hasAudioContext s |}.

Definition setIsPaused (b : bool) (s : AppState) : AppState :=
  {| config := config s; resetKey := resetKey s; isQuaking := isQuaking s;
     quakePower := quakePower s; isPaused := b;
     customDuration := customDuration s;
     timeoutRef := timeoutRef s; pWaveTimeoutRef := pWaveTimeoutRef s;
     audioContextRef := audioContextRef s;
     timers := timers s; nextTimer := nextTimer s;
     hasAudioContext := hasAudioContext s |}.

Definition setCustomDuration (d : Q) (s : AppState) : AppState :=
  {| config := config s; resetKey := resetKey s; isQuaking := isQuaking s;
     quakePower := quakePower s; isPaused := isPaused s;
     customDuration := d;
     timeoutRef := timeoutRef s; pWaveTimeoutRef := pWaveTimeoutRef s;
     audioContextRef := audioContextRef s;
     timers := timers s; nextTimer := nextTimer s;
     hasAudioContext := hasAudioContext s |}.

Definition setTimeoutRef (r : option positive) (s : AppState) : AppState :=
  {| config := config s; resetKey := resetKey s; isQuaking := isQuaking s;
     quakePower := quakePower s; isPaused := isPaused s;
     customDuration := customDuration s;
     timeoutRef := r; pWaveTimeoutRef := pWaveTimeoutRef s;
     audioContextRef := audioContextRef s;
     timers := timers s; nextTimer := nextTimer s;
     hasAudioContext := hasAudioContext s |}.

Definition setPWaveTimeoutRef (r : option positive) (s : AppState) : AppState :=
  {| config := config s; resetKey := resetKey s; isQuaking := isQuaking s;
     quakePower := quakePower s; isPaused := isPaused s;
     customDuration := customDuration s;
     timeoutRef := timeoutRef s; pWaveTimeoutRef := r;
     audioContextRef := audioContextRef s;
     timers := timers s; nextTimer := nextTimer s;
     hasAudioContext := hasAudioContext s |}.

Definition setAudioContextRef (a : option Sound) (s : AppState) : AppState :=
  {| config := config s; resetKey := resetKey s; isQuaking := isQuaking s;
     quakePower := quakePower s; isPaused := isPaused s;
     customDuration := customDuration s;
     timeoutRef := timeoutRef s; pWaveTimeoutRef := pWaveTimeoutRef s;
     audioContextRef := a;
     timers := timers s; nextTimer := nextTimer s;
     hasAudioContext := hasAudioContext s |}.

(** * App.tsx: handlers *)

Definition stopEarthquakeSound (s : AppState) : AppState :=
  match audioContextRef s with
  | Some _ => setAudioContextRef None s
  | None => s
  end.

Definition playEarthquakeSound (duration power : Q) (s : AppState) : AppState :=
  let s := stopEarthquakeSound s in
  if hasAudioContext s then
    let durationSec := duration / 1000 in
    let volume := Qmin (0.15 * (power * power)) 0.8 in
    setAudioContextRef (Some (mkSound durationSec volume)) s
  else s.

Definition handleRebuild (s : AppState) : AppState :=
  let s := stopEarthquakeSound s in
  let s := setResetKey (fun prev => (prev + 1)%nat) s in
  let s := setIsQuaking false s in
  let s := setIsPaused false s in
  let s := clearIfSet (timeoutRef s) s in
  let s := clearIfSet (pWaveTimeoutRef s) s in
  s.

Definition handleConfigChange (stories : nat) (type : BuildingType) (s : AppState) : AppState :=
  let s := setConfig (mkConfig stories type) s in
  handleRebuild s.

(** [handleEarthquake(duration, power)]; [r] is the value of the one
    [Math.random()] call that the split of the duration makes. *)
Definition handleEarthquake (duration power r : Q) (s : AppState) : AppState :=
  let s := clearIfSet (timeoutRef s) s in
  let s := clearIfSet (pWaveTimeoutRef s) s in
  let s := setIsQuaking true s in
  match type (config s), Qle_bool 1.4 power with
  | bank, true =>
      let pWaveRatio := 0.30 + r * 0.10 in
      let pWaveDuration := duration * pWaveRatio in
      let sWaveDuration := duration - pWaveDuration in
      let pWavePower := 0.5 in
      let s := setQuakePower pWavePower s in
      let s := playEarthquakeSound (pWaveDuration + 500) pWavePower s in
      let '(id, s) := setTimeout (startSWave power sWaveDuration) pWaveDuration s in
      let s := setPWaveTimeoutRef (Some id) s in
      let '(id, s) := setTimeout endQuake duration s in
      setTimeoutRef (Some id) s
  | _, _ =>
      let s := setQuakePower power s in
      let s := playEarthquakeSound duration power s in
      let '(id, s) := setTimeout endQuake duration s in
      setTimeoutRef (Some id) s
  end.

(** The effect that resets the custom duration when the building type
    has changed in a render. *)
Definition typeEffect (before : BuildingType) (s : AppState) : AppState :=
  match before, type (config s) with
  | simple, simple | apartment, apartment | bank, bank => s
  | _, bank => setCustomDuration 30 s
  | _, _ => setCustomDuration 15 s
  end.

(** The host runs the callback of a pending timer and forgets the timer. *)
Definition runCallback (cb : TimerCallback) (s : AppState) : AppState :=
  match cb with
  | startSWave power sWaveDuration =>
      playEarthquakeSound sWaveDuration power (setQuakePower power s)
  | endQuake => setIsQuaking false s
  end.

Definition fireTimer (id : positive) (s : AppState) : AppState :=
  match timers s !! id with
  | Some t => runCallback (callback t) (clearTimeout id s)
  | None => s
  end.

(** ** The quake buttons *)

Inductive QuakeButton : Type :=
| quake5s     (* M6.9 Quake (5s) *)
| quake10s    (* M6.9 Quake (10s) *)
| triggerM75  (* apartment only *)
| triggerM79. (* bank only *)

(** The panel of a custom trigger is rendered for its building type only. *)
Definition rendered (b : QuakeButton) (s : AppState) : bool :=
  match b, type (config s) with
  | quake5s, _ | quake10s, _ => true
  | triggerM75, apartment => true
  | triggerM79, bank => true
  | _, _ => false
  end.

(** Every quake button carries [disabled={isQuaking}]. *)
Definition disabled (b : QuakeButton) (s : AppState) : bool := isQuaking s.

(** The arguments of [handleEarthquake] in the button's [onClick]. *)
Definition onClickArgs (b : QuakeButton) (s : AppState) : Q * Q :=
  match b with
  | quake5s => (5000, 1)
  | quake10s => (10000, 1)
  | triggerM75 => (customDuration s * 1000, 1.2)
  | triggerM79 => (customDuration s * 1000, 1.4)
  end.

(** A click on a quake button: a disabled button dispatches no click. *)
Definition clickQuake (b : QuakeButton) (r : Q) (s : AppState) : AppState :=
  if rendered b s && negb (disabled b s) then
    let '(duration, power) := onClickArgs b s in
    handleEarthquake duration power r s
  else s.

(** The events that drive the application. *)
Inductive AppEvent : Type :=
| ClickConfig (stories : nat) (type : BuildingType)
| ClickRebuild
| ClickPause
| ClickQuake (b : QuakeButton) (r : Q)
| ChangeDuration (value : Q)
| TimerFires (id : positive).

Definition appStep (e : AppEvent) (s : AppState) : AppState :=
  match e with
  | ClickConfig n t =>
      typeEffect (type (config s)) (handleConfigChange n t s)
  | ClickRebuild => handleRebuild s
  | ClickPause => setIsPaused (negb (isPaused s)) s
  | ClickQuake b r => clickQuake b r s
  | ChangeDuration value => setCustomDuration value s
  | TimerFires id => fireTimer id s
  end.

(** * Scene.tsx: the floor *)

(** [Math.sin] and [Math.cos] of the host. *)
Class JsMath : Type := mkJsMath
  { Math_sin : Q -> Q; Math_cos : Q -> Q }.

(** The kinematic floor body: the position last sent to the physics
    engine, and the clock [timeRef] of the shaking. *)
Record FloorState : Type := mkFloor
  { floorPosition : Vec3; timeRef : Q }.

(** [useBox] creates the body at [position: [0, -1.1, 0]]; [useRef(0)]. *)
Definition mountFloor : FloorState :=
  {| floorPosition := (0, -1.1, 0); timeRef := 0 |}.

Definition intensityX (quakePower : Q) : Q := 1.0 * quakePower.
Definition intensityY (quakePower : Q) : Q := 0.4 * quakePower.
Definition noiseFactor (quakePower : Q) : Q := 0.6 * quakePower.
(** The factor of the vertical noise, which the source writes in place as
    [(0.3 * quakePower)]. *)
Definition verticalNoiseFactor (quakePower : Q) : Q := 0.3 * quakePower.

(** The callback that [Floor] hands to [useFrame]; [r1], [r2], [r3] are its
    three [Math.random()] values in the order of the calls. *)
Definition Floor_useFrame `{JsMath} (isQuaking : bool) (quakePower : Q)
    (delta r1 r2 r3 : Q) (f : FloorState) : FloorState :=
  if isQuaking then
    let speed := 25 in
    let timeRef' := timeRef f + delta * speed in
    let t := timeRef' in
    let x := Math_sin t * intensityX quakePower + (r1 - 0.5) * noiseFactor quakePower in
    let z := Math_cos (t * 0.9) * intensityX quakePower + (r2 - 0.5) * noiseFactor quakePower in
    let y := -1.1 + Math_sin (t * 1.5) * intensityY quakePower
             + (r3 - 0.5) * verticalNoiseFactor quakePower in
    {| floorPosition := (x, y, z); timeRef := timeRef' |}
  else
    {| floorPosition := (0, -1.1, 0); timeRef := timeRef f |}.

(** * The application and its scene *)

(** [<Scene key={resetKey} .../>]: the scene, and the floor in it, is
    mounted anew whenever the key differs from the one it was mounted
    with. *)
Record World : Type := mkWorld
  { app : AppState; floor : FloorState; mountedKey : nat }.

Definition initialWorld (audio : bool) : World :=
  {| app := initialApp audio; floor := mountFloor; mountedKey := 0 |}.

Definition render (w : World) : World :=
  if Nat.eqb (resetKey (app w)) (mountedKey w) then w
  else {| app := app w; floor := mountFloor; mountedKey := resetKey (app w) |}.

Record FrameInput : Type := mkFrame
  { frameDelta : Q; random1 : Q; random2 : Q; random3 : Q }.

Inductive Event : Type :=
| UI (e : AppEvent)
| Frame (i : FrameInput).

Definition worldStep `{JsMath} (e : Event) (w : World) : World :=
  match e with
  | UI e => render {| app := appStep e (app w); floor := floor w; mountedKey := mountedKey w |}
  | Frame i =>
      {| app := app w;
         floor := Floor_useFrame (isQuaking (app w)) (quakePower (app w))
                    (frameDelta i) (random1 i) (random2 i) (random3 i) (floor w);
         mountedKey := mountedKey w |}
  end.

Definition run `{JsMath} (es : list Event) (w : World) : World :=
  fold_left (fun w e => worldStep e w) es w.

(** The states the application can be in. *)
Inductive reachable `{JsMath} : World -> Prop :=
| reachable_initial audio : reachable (initialWorld audio)
| reachable_step e w : reachable w -> reachable (worldStep e w).

(** * Interaction: the drag provider *)

Abbreviation Quaternion := (Q * Q * Q * Q)%type.

(** The pose of a mesh of the scene; the physics engine rewrites it. *)
Record Object3D : Type := mkObject
  { objPosition : Vec3; quaternion : Quaternion }.

(** The functions of the rendering library that the drag code calls. *)
Class Three : Type := mkThree
  { Camera : Type;
    cameraPosition : Camera -> Vec3;
    worldToLocal : Object3D -> Vec3 -> Vec3;
    applyQuaternion : Vec3 -> Quaternion -> Vec3;
    unproject : Vec3 -> Camera -> Vec3;
    normalize : Vec3 -> Vec3;
    distanceTo : Vec3 -> Vec3 -> Q }.

Module Vector3.
Definition add (a b : Vec3) : Vec3 :=
  let '(ax, ay, az) := a in let '(bx, by_, bz) := b in (ax + bx, ay + by_, az + bz).
Definition sub (a b : Vec3) : Vec3 :=
  let '(ax, ay, az) := a in let '(bx, by_, bz) := b in (ax - bx, ay - by_, az - bz).
Definition multiplyScalar (a : Vec3) (k : Q) : Vec3 :=
  let '(ax, ay, az) := a in (ax * k, ay * k, az * k).
End Vector3.

(** [Vector3] objects are mutable and shared: they live in a heap and are
  passed by address. *)
Abbreviation loc := positive.

(** The drag state [{ ref, pivot }].  [ref] is the mesh that [ref.current]
    points to; [ownRef] tells whether the ref object is the child's own
    ([children.props.ref], [children.ref]), which is taken to be one object
    per mesh, or the object [{ current: e.object }], which is a new object
    at every pointer-down. *)
Record DragSession : Type := mkSession
{ ref : positive;
  pivot : loc;
  ownRef : bool }.

(** Whether two drag states hold the same ref object. *)
Definition sameRef (a b : DragSession) : bool :=
  ownRef a && ownRef b && Pos.eqb (ref a) (ref b).

(** A mounted [CursorConstraint] with its [DragLine]. *)
Record CursorConstraint : Type := mkCursor
{ props : DragSession;              (* [targetRef] and [pivot] of the last render *)
  cursorPosition : Vec3;            (* [cursorRef.current.position]: the mesh of the sphere *)
  cursorApiPosition : Vec3;         (* the body of the sphere: [position] of [useSphere],
                                       then the last [cursorApi.position.set] *)
  constraintTarget : positive;      (* bodyB of the constraint *)
  pivotA : Vec3;
  pivotB : Vec3;
  initialDistance : Q;
  startPos : loc; endPos : loc; worldPivot : loc;   (* DragLine's scratch vectors *)
  linePositions : option (Vec3 * Vec3) }.

Record DragWorld : Type := mkDrag
{ heap : gmap loc Vec3;
  nextLoc : loc;
  objects : gmap positive Object3D;
  dragState : option DragSession;
  orbitEnabled : bool;
  cursorConstraint : option CursorConstraint }.

Definition initialDrag (objs : gmap positive Object3D) : DragWorld :=
{| heap := ∅; nextLoc := 1%positive; objects := objs;
   dragState := None; orbitEnabled := true; cursorConstraint := None |}.

(** [new Vector3(x, y, z)] and [v.clone()] *)
Definition newVector3 (v : Vec3) (w : DragWorld) : loc * DragWorld :=
let l := nextLoc w in
(l, {| heap := <[l := v]> (heap w); nextLoc := Pos.succ l; objects := objects w;
       dragState := dragState w; orbitEnabled := orbitEnabled w;
       cursorConstraint := cursorConstraint w |}).

Definition readVector3 (l : loc) (w : DragWorld) : Vec3 :=
default (0, 0, 0) (heap w !! l).

(** A method that writes its result into the receiver [l]. *)
Definition writeVector3 (l : loc) (v : Vec3) (w : DragWorld) : DragWorld :=
{| heap := <[l := v]> (heap w); nextLoc := nextLoc w; objects := objects w;
   dragState := dragState w; orbitEnabled := orbitEnabled w;
   cursorConstraint := cursorConstraint w |}.

Definition setDragState (d : option DragSession) (w : DragWorld) : DragWorld :=
{| heap := heap w; nextLoc := nextLoc w; objects := objects w;
   dragState := d; orbitEnabled := orbitEnabled w;
   cursorConstraint := cursorConstraint w |}.

Definition setOrbitEnabled (b : bool) (w : DragWorld) : DragWorld :=
{| heap := heap w; nextLoc := nextLoc w; objects := objects w;
   dragState := dragState w; orbitEnabled := b;
   cursorConstraint := cursorConstraint w |}.

Definition setCursorConstraint (c : option CursorConstraint) (w : DragWorld) : DragWorld :=
{| heap := heap w; nextLoc := nextLoc w; objects := objects w;
   dragState := dragState w; orbitEnabled := orbitEnabled w;
   cursorConstraint := c |}.

Definition setObjects (o : gmap positive Object3D) (w : DragWorld) : DragWorld :=
{| heap := heap w; nextLoc := nextLoc w; objects := o;
   dragState := dragState w; orbitEnabled := orbitEnabled w;
   cursorConstraint := cursorConstraint w |}.

Section Interaction.
Context `{Three}.

(** [CursorConstraint] and [DragLine] are mounted with the drag state [d]
    as props: the sphere at the origin, the constraint between the sphere
    and the target with the pivot as it is read now, the distance from the
    camera to the target, three fresh scratch vectors. *)
Definition mountCursorConstraint (camera : Camera) (d : DragSession) (w : DragWorld)
  : DragWorld :=
  let '(pivotX, pivotY, pivotZ) := readVector3 (pivot d) w in
  let dist :=
    match objects w !! ref d with
    | Some target => distanceTo (cameraPosition camera) (objPosition target)
    | None => 0
    end in
  let '(sp, w) := newVector3 (0, 0, 0) w in
  let '(ep, w) := newVector3 (0, 0, 0) w in
  let '(wp, w) := newVector3 (0, 0, 0) w in
  setCursorConstraint
    (Some {| props := d;
             cursorPosition := (0, 0, 0);
             cursorApiPosition := (0, 0, 0);
             constraintTarget := ref d;
             pivotA := (0, 0, 0);
             pivotB := (pivotX, pivotY, pivotZ);
             initialDistance := dist;
             startPos := sp; endPos := ep; worldPivot := wp;
             linePositions := None |}) w.

(** A mounted [CursorConstraint] is rendered again with the drag state [d]
    as props.  The sphere and the constraint are those of the mount: their
    hooks run with the dependencies they had.  The effect that measures the
    distance runs again when [targetRef] is another object; [DragLine] is
    rendered again and makes its three scratch vectors anew. *)
Definition rerenderCursorConstraint (camera : Camera) (d : DragSession)
    (c : CursorConstraint) (w : DragWorld) : DragWorld :=
  let dist :=
    if sameRef (props c) d then initialDistance c
    else match objects w !! ref d with
         | Some target => distanceTo (cameraPosition camera) (objPosition target)
         | None => initialDistance c
         end in
  let '(sp, w) := newVector3 (0, 0, 0) w in
  let '(ep, w) := newVector3 (0, 0, 0) w in
  let '(wp, w) := newVector3 (0, 0, 0) w in
  setCursorConstraint
    (Some {| props := d;
             cursorPosition := cursorPosition c;
             cursorApiPosition := cursorApiPosition c;
             constraintTarget := constraintTarget c;
             pivotA := pivotA c;
             pivotB := pivotB c;
             initialDistance := dist;
             startPos := sp; endPos := ep; worldPivot := wp;
             linePositions := linePositions c |}) w.

(** The provider renders [CursorConstraint] exactly while there is a
    drag state. *)
Definition renderDrag (camera : Camera) (w : DragWorld) : DragWorld :=
  match dragState w, cursorConstraint w with
  | Some d, None => mountCursorConstraint camera d w
  | Some d, Some c => rerenderCursorConstraint camera d c w
  | None, Some _ => setCursorConstraint None w
  | None, None => w
  end.

(** [startDrag(ref, hitPoint)]; the ref object is given by the mesh [r] it
    points to and by [own]. *)
Definition startDrag (r : positive) (own : bool) (hitPoint : loc) (w : DragWorld)
  : DragWorld :=
  setOrbitEnabled false (setDragState (Some (mkSession r hitPoint own)) w).

Definition endDrag (w : DragWorld) : DragWorld :=
  setOrbitEnabled true (setDragState None w).

(** The pointer event of the renderer: the world-space hit point, the
    mesh that was hit, and the ref of the wrapped child when it has one. *)
Record PointerEvent : Type := mkPointer
  { point : Vec3; object : positive; childRef : option positive }.

(** [onPointerDown] of [Draggable]. *)
Definition onPointerDown (e : PointerEvent) (w : DragWorld) : DragWorld :=
  let r := default (object e) (childRef e) in
  let own := match childRef e with Some _ => true | None => false end in
  let '(worldPoint, w) := newVector3 (point e) w in          (* e.point.clone() *)
  let w :=                                  (* e.object.worldToLocal(worldPoint) *)
    match objects w !! object e with
    | Some o => writeVector3 worldPoint (worldToLocal o (readVector3 worldPoint w)) w
    | None => w
    end in
  let localPoint := worldPoint in
  startDrag r own localPoint w.

(** [useFrame] of [CursorConstraint]: the sphere is sent to where the
    pointer is, at the depth of the grab. *)
Definition CursorConstraint_useFrame (camera : Camera) (pointer : Q * Q)
    (c : CursorConstraint) : CursorConstraint :=
  let vector := unproject (fst pointer, snd pointer, 0.5) camera in
  let dir := normalize (Vector3.sub vector (cameraPosition camera)) in
  let distance := if Qeq_bool (initialDistance c) 0 then 10 else initialDistance c in
  let pos := Vector3.add (cameraPosition camera) (Vector3.multiplyScalar dir distance) in
  {| props := props c;
     cursorPosition := cursorPosition c;
     cursorApiPosition := pos;
     constraintTarget := constraintTarget c; pivotA := pivotA c; pivotB := pivotB c;
     initialDistance := initialDistance c;
     startPos := startPos c; endPos := endPos c; worldPivot := worldPivot c;
     linePositions := linePositions c |}.

(** [useFrame] of [DragLine], whose [endRef] and [localPivot] are the
    props of [CursorConstraint]: the line runs from where the mesh of the
    sphere is to the pivot carried into world space with the pose the target
    has now. *)
Definition DragLine_useFrame (c : CursorConstraint) (w : DragWorld)
  : CursorConstraint * DragWorld :=
  match objects w !! ref (props c) with
  | None => (c, w)
  | Some obj =>
      let w := writeVector3 (startPos c) (cursorPosition c) w in
      let w := writeVector3 (worldPivot c) (readVector3 (pivot (props c)) w) w in
      let w := writeVector3 (worldPivot c)
                 (applyQuaternion (readVector3 (worldPivot c) w) (quaternion obj)) w in
      let w := writeVector3 (worldPivot c)
                 (Vector3.add (readVector3 (worldPivot c) w) (objPosition obj)) w in
      ({| props := props c;
          cursorPosition := cursorPosition c;
          cursorApiPosition := cursorApiPosition c;
          constraintTarget := constraintTarget c;
          pivotA := pivotA c; pivotB := pivotB c;
          initialDistance := initialDistance c;
          startPos := startPos c; endPos := endPos c; worldPivot := worldPivot c;
          linePositions :=
            Some (readVector3 (startPos c) w, readVector3 (worldPivot c) w) |}, w)
  end.

(** What the physics engine does to the sphere in its step: it leaves the
    mesh at [p]. *)
Definition moveCursor (p : Vec3) (c : CursorConstraint) : CursorConstraint :=
  {| props := props c;
     cursorPosition := p;
     cursorApiPosition := cursorApiPosition c;
     constraintTarget := constraintTarget c; pivotA := pivotA c; pivotB := pivotB c;
     initialDistance := initialDistance c;
     startPos := startPos c; endPos := endPos c; worldPivot := worldPivot c;
     linePositions := linePositions c |}.

(** One rendered frame.  The frame callbacks run in the order in which the
    components subscribed, the child [DragLine] before [CursorConstraint];
    then the physics engine steps and leaves the meshes in the poses [moved]
    and the mesh of the sphere at [movedCursor]. *)
Record DragFrame : Type := mkDragFrame
  { camera : Camera; pointer : Q * Q;
    moved : gmap positive Object3D; movedCursor : Vec3 }.

Definition dragFrame (i : DragFrame) (w : DragWorld) : DragWorld :=
  let w :=
    match cursorConstraint w with
    | Some c =>
        let '(c, w) := DragLine_useFrame c w in
        let c := CursorConstraint_useFrame (camera i) (pointer i) c in
        setCursorConstraint (Some (moveCursor (movedCursor i) c)) w
    | None => w
    end in
  setObjects (moved i) w.

Inductive DragEvent : Type :=
| PointerDown (cam : Camera) (e : PointerEvent)
| PointerUp (cam : Camera)
| DragTick (i : DragFrame).

Definition dragStep (e : DragEvent) (w : DragWorld) : DragWorld :=
  match e with
  | PointerDown cam e => renderDrag cam (onPointerDown e w)
  | PointerUp cam => renderDrag cam (endDrag w)
  | DragTick i => dragFrame i w
  end.

Definition dragFrames (fs : list DragFrame) (w : DragWorld) : DragWorld :=
  fold_left (fun w i => dragFrame i w) fs w.
End Interaction.

(** * States the application can reach, and what they maintain *)

(** The states of [App] alone. *)
Inductive appReachable : AppState -> Prop :=
| appReachable_initial audio : appReachable (initialApp audio)
| appReachable_step e s : appReachable s -> appReachable (appStep e s).

(** Every pending timer is held by one of the two refs, and the ids the
    refs hold have been handed out already. *)
Definition timersTracked (s : AppState) : Prop :=
  (forall id, is_Some (timers s !! id) ->
     timeoutRef s = Some id \/ pWaveTimeoutRef s = Some id)
  /\ (forall id, timeoutRef s = Some id -> (id < nextTimer s)%positive)
  /\ (forall id, pWaveTimeoutRef s = Some id -> (id < nextTimer s)%positive).

(** The three phases of the quake state. *)
Inductive Phase : Type := NoQuake | PWave | SWave.

(** A quake is in its P-wave while the timer that starts the S-wave is
    pending. *)
Definition phase (s : AppState) : Phase :=
  if isQuaking s then
    match pWaveTimeoutRef s with
    | Some id =>
        match timers s !! id with
        | Some _ => PWave
        | None => SWave
        end
    | None => SWave
    end
  else NoQuake.

(** The coordinates of the floor. *)
Definition floorX (f : FloorState) : Q := fst (fst (floorPosition f)).
Definition floorY (f : FloorState) : Q := snd (fst (floorPosition f)).
Definition floorZ (f : FloorState) : Q := snd (floorPosition f).

(** What the two [clearTimeout] calls of a handler leave pending. *)
Definition clearedTimers (ref : option positive) (t : gmap positive Timer)
  : gmap positive Timer :=
  match ref with
  | Some id => delete id t
  | None => t
  end.

(** The sound that [playEarthquakeSound(duration, power)] opens. *)
Definition soundOf (duration power : Q) : Sound :=
  mkSound (duration / 1000) (Qmin (0.15 * (power * power)) 0.8).

(** The frames of a quake of one power, and the frame time they add up to. *)
Definition quakeFrame `{JsMath} (quakePower : Q) (f : FloorState) (i : FrameInput)
  : FloorState :=
  Floor_useFrame true quakePower (frameDelta i) (random1 i) (random2 i) (random3 i) f.

Definition elapsed (frames : list FrameInput) : Q :=
  fold_right (fun i acc => frameDelta i + acc) 0 frames.

(** What a drag session keeps: the drag state [d], the vector [v] stored
    at the address of its pivot, and a mounted [CursorConstraint] that has
    [d] as props and whose scratch vectors are other objects than the
    pivot. *)
Definition inSession (d : DragSession) (v : Vec3) (w : DragWorld) : Prop :=
  dragState w = Some d
  /\ heap w !! pivot d = Some v
  /\ exists c, cursorConstraint w = Some c /\ props c = d
       /\ startPos c <> pivot d /\ worldPivot c <> pivot d
       /\ startPos c <> worldPivot c.

(** * Examples to run the model on *)

(** A host with the small-angle sine and cosine. *)
Definition smallAngles : JsMath :=
  {| Math_sin := fun x => x; Math_cos := fun _ => 1%Q |}.

(** A rendering library whose camera is its position and whose meshes are
    never rotated, so that the local frame of a mesh is the world frame moved
    to the position of the mesh. *)
Definition unrotated : Three :=
  {| Camera := Vec3;
     cameraPosition := fun c => c;
     worldToLocal := fun o v => Vector3.sub v (objPosition o);
     applyQuaternion := fun v _ => v;
     unproject := fun v c => Vector3.add v c;
     normalize := fun v => v;
     distanceTo := fun a b =>
       let '(x, y, z) := Vector3.sub a b in Qabs x + Qabs y + Qabs z |}.

(** The simple building, one click on "M6.9 Quake (5s)" after the start. *)
Definition simpleQuaking : AppState :=
  appStep (ClickQuake quake5s 0) (initialApp true).

(** The bank, just selected. *)
Definition bankApp : AppState :=
  appStep (ClickConfig 10 bank) (initialApp true).

(** Three worlds, one per phase: at rest; the bank in the P-wave of an M7.9
    quake; the same quake after its phase timer has fired and a frame has
    been drawn. *)
Definition idleWorld : World := initialWorld true.

Definition pWaveWorld : World :=
  worldStep (H := smallAngles) (UI (ClickQuake triggerM79 0.5))
    (worldStep (H := smallAngles) (UI (ClickConfig 10 bank)) (initialWorld true)).

Definition sWaveWorld : World :=
  worldStep (H := smallAngles) (Frame (mkFrame 0.016 0.1 0.2 0.3))
    (worldStep (H := smallAngles) (UI (TimerFires 1)) pWaveWorld).

(** A scene of one slab at height 4, a pointer event that hits it, and two
    frames during which the physics engine moves the slab. *)
Definition oneSlab : DragWorld :=
  initialDrag {[ 1%positive := mkObject (0, 4, 0) (0, 0, 0, 1) ]}.

Definition hitSlab : PointerEvent :=
  {| point := (1, 4.2, 0.5); object := 1%positive; childRef := None |}.

Definition twoFrames : list (@DragFrame unrotated) :=
  let moved := {[ 1%positive := mkObject (3, 1, -2) (0, 0, 0, 1) ]} in
  [ mkDragFrame (H := unrotated) (35, 25, 35) (0.1, 0.2) moved (0, 0, 0);
    mkDragFrame (H := unrotated) (35, 25, 35) (0.3, -0.1) moved (2, 3, 1) ].

(** A scene of the slab and a cube, and a pointer event that hits the
    cube. *)
Definition slabAndCube : DragWorld :=
  initialDrag {[ 1%positive := mkObject (0, 4, 0) (0, 0, 0, 1);
                 2%positive := mkObject (6, 0.5, 0) (0, 0, 0, 1) ]}.

Definition hitCube : PointerEvent :=
  {| point := (6.5, 0.6, 0.25); object := 2%positive; childRef := None |}.

(** * What the further properties speak of *)

(** What the excitation controller keeps of its timers: a pending timer is
    either the end-of-quake timer held by [timeoutRef], or the phase timer
    held by [pWaveTimeoutRef], which exists only on the bank, during a quake
    step at power 0.5, and carries a power of at least 1.4; the two refs never
    hold the same id; and an active quake has its end-of-quake timer
    pending. *)
Definition quakeScheduled (s : AppState) : Prop :=
  (forall id t, timers s !! id = Some t ->
     (timeoutRef s = Some id /\ callback t = endQuake)
     \/ (pWaveTimeoutRef s = Some id /\ quakePower s = 0.5
         /\ type (config s) = bank
         /\ exists power sWaveDuration,
              callback t = startSWave power sWaveDuration /\ 1.4 <= power))
  /\ (forall id, timeoutRef s = Some id -> pWaveTimeoutRef s <> Some id)
  /\ (isQuaking s = true ->
      exists id d, timeoutRef s = Some id
                   /\ timers s !! id = Some (mkTimer d endQuake)).

(** The bank in the P-wave of an M7.9 quake. *)
Definition bankPWave : AppState := appStep (ClickQuake triggerM79 0.5) bankApp.

(** The store into a [Float32Array]: the number is rounded to single
    precision. *)
Class Float32 : Type := mkFloat32
  { Math_fround : Q -> Q }.

(** The noise loop of [playEarthquakeSound],

      [for (let i = 0; i < bufferSize; i++) { ... }],

    on the channel data of a buffer.  A cell of the array, and [lastOut],
    is a number, or [None] for [NaN] and for the [undefined] that reading
    past the end of the array gives; a store past the end is ignored.
    [random i] is the value of [Math.random()] in the turn of counter [i]. *)
Definition noiseStep `{Float32} (random : nat -> Q) (i : nat)
    (st : list (option Q) * option Q) : list (option Q) * option Q :=
  let '(data, lastOut) := st in
  let white := random i * 2 - 1 in
  let data :=                                (* data[i] = (lastOut + (0.02 * white)) / 1.02 *)
    <[i := (fun l => Math_fround ((l + 0.02 * white) / 1.02)) <$> lastOut]> data in
  let lastOut := mjoin (data !! i) in        (* lastOut = data[i] *)
  let data :=                                (* data[i] *= 3.5 *)
    <[i := (fun x => Math_fround (x * 3.5)) <$> mjoin (data !! i)]> data in
  (data, lastOut).

(** The turns of the loop: the counters [i] with [i < bufferSize], which
    need not be a whole number. *)
Definition iterations (bufferSize : Q) : nat := Z.to_nat (Qceiling bufferSize).

(** The channel data after the loop; [length] is the length that
    [createBuffer] gave the buffer, whose cells start at 0. *)
Definition brownNoise `{Float32} (bufferSize : Q) (length : nat) (random : nat -> Q)
  : list (option Q) :=
  fst (fold_left (fun st i => noiseStep random i st)
         (seq 0 (iterations bufferSize))
         (replicate length (Some 0), Some 0)).

(** A store that rounds to the nearest multiple of 1/1024. *)
Definition fixedPoint : Float32 :=
  {| Math_fround := fun x => inject_Z (Qfloor (x * 1024 + 0.5)) / 1024 |}.

(** Two extents along one axis, each given by its centre and its full size,
    that are at least [m] apart. *)
Definition clearBy (m : Q) (c1 s1 c2 s2 : Q) : Prop :=
  c1 + s1 / 2 + m <= c2 - s2 / 2 \/ c2 + s2 / 2 + m <= c1 - s1 / 2.

(** Two physics boxes that are at least [m] apart along one of the three
    axes. *)
Definition apartBy (m : Q) (a b : PhysicsBoxProps) : Prop :=
  let '(ax, ay, az) := position a in
  let '(aw, ah, ad) := args a in
  let '(bx, by_, bz) := position b in
  let '(bw, bh, bd) := args b in
  clearBy m ax aw bx bw \/ clearBy m ay ah by_ bh \/ clearBy m az ad bz bd.

(** The elements that carry a slab and stand on one. *)
Definition isSupport (b : PhysicsBoxProps) : bool :=
  match role b with
  | Some Pillar | Some Wall | Some Window => true
  | _ => false
  end.

(** A slab [s] of level [i] and a pillar, wall or window [p] of that level,
    which carries it, or of the next level, which stands on it. *)
Definition slabAndSupport (type : BuildingType) (i : nat) (s p : PhysicsBoxProps)
  : Prop :=
  In s (Story type i) /\ role s = Some Slab /\ isSupport p = true
  /\ (In p (Story type i) \/ In p (Story type (S i))).

(** The height of one story: its pillars and the slab on them. *)
Definition storyHeight (type : BuildingType) : Q :=
  match type with
  | bank | apartment => PILLAR_HEIGHT + BEAM_HEIGHT_KINDA_BIG
  | simple => PILLAR_HEIGHT + SLAB_HEIGHT
  end.

(** The lower and the upper face of a box. *)
Definition bottom (b : PhysicsBoxProps) : Q :=
  snd (fst (position b)) - snd (fst (args b)) / 2.
Definition top (b : PhysicsBoxProps) : Q :=
  snd (fst (position b)) + snd (fst (args b)) / 2.

(** What tells the elements of one story apart: the prefix and the two
    counters of the key, and the horizontal position for elements that have
    no key. *)
Definition storyLabel (b : PhysicsBoxProps) : option (string * nat * nat) * (Z * Z) :=
  (match key b with
   | Some k => Some (prefix k, keyX k, keyZ k)
   | None => None
   end,
   match key b with
   | Some _ => (0%Z, 0%Z)
   | None => (Qnum (fst (fst (position b))), Qnum (snd (position b)))
   end).

(** What the loop keeps before the turn of counter [i]: every cell holds a
    number within 3.5 of zero, and [lastOut] is a number within 1 of zero
    unless the counter has passed the end of the array. *)
Definition noiseInvariant (i : nat) (st : list (option Q) * option Q) : Prop :=
  Forall (fun cell => exists x, cell = Some x /\ -3.5 <= x <= 3.5) (fst st)
  /\ match snd st with
     | Some l => -1 <= l <= 1
     | None => (length (fst st) <= i)%nat
     end.

(** The shaking power stays between that of the P-wave and that of the
    M7.9 trigger, now and after any pending phase timer. *)
Definition powerInRange (s : AppState) : Prop :=
  0.5 <= quakePower s <= 1.4
  /\ forall id d power sWaveDuration,
       timers s !! id = Some (mkTimer d (startSWave power sWaveDuration)) ->
       0.5 <= power <= 1.4.

(** A host whose sine is the small-angle sine cut off at -1 and 1. *)
Definition clampedAngles : JsMath :=
  {| Math_sin := fun x => Qmax (-1) (Qmin 1 x); Math_cos := fun _ => 1%Q |}.

(** The simple building in an M6.9 quake, on the host [clampedAngles]. *)
Definition quakingWorld : World :=
  worldStep (H := clampedAngles) (UI (ClickQuake quake5s 0)) (initialWorld true).

(** The states of the drag provider: the scene as mounted, and what the
    pointer events and the frames make of it. *)
Inductive dragReachable `{Three} : DragWorld -> Prop :=
| dragReachable_initial objs : dragReachable (initialDrag objs)
| dragReachable_step e w : dragReachable w -> dragReachable (dragStep e w).

(** The orbit controls are on, and no cursor constraint is mounted,
    exactly when nothing is dragged. *)
Definition providerConsistent (w : DragWorld) : Prop :=
  (orbitEnabled w = true <-> dragState w = None)
  /\ (cursorConstraint w = None <-> dragState w = None).

(** * Properties of the structure generator *)

#[local] Open Scope nat_scope.

Lemma in_forRange {A : Type} (n : nat) (body : nat -> list A) (a : A) :
  In a (forRange n body) <-> exists i, i < n /\ In a (body i).
Proof.
  unfold forRange. rewrite in_flat_map. split.
  - intros (i & Hi & Ha). apply in_seq in Hi. exists i. split; [lia | exact Ha].
  - intros (i & Hi & Ha). exists i. split; [apply in_seq; lia | exact Ha].
Qed.

Lemma forRange_S {A : Type} (n : nat) (body : nat -> list A) :
  forRange (S n) body = forRange n body ++ body n.
Proof.
  unfold forRange. rewrite seq_S, flat_map_app. simpl. now rewrite app_nil_r.
Qed.

Lemma length_forRange {A : Type} (n c : nat) (body : nat -> list A) :
  (forall i, i < n -> length (body i) = c) -> length (forRange n body) = n * c.
Proof.
  induction n as [|n IH]; intros Hc; [reflexivity|].
  rewrite forRange_S, length_app, IH by (intros; apply Hc; lia).
  rewrite Hc by lia. lia.
Qed.

Lemma filter_forRange {A : Type} (p : A -> bool) (n : nat) (body : nat -> list A) :
  List.filter p (forRange n body) = forRange n (fun i => List.filter p (body i)).
Proof.
  induction n as [|n IH]; [reflexivity|].
  now rewrite !forRange_S, List.filter_app, IH.
Qed.

Lemma countRole_app (r : Role) (l1 l2 : list PhysicsBoxProps) :
  countRole r (l1 ++ l2) = countRole r l1 + countRole r l2.
Proof. unfold countRole. now rewrite List.filter_app, length_app. Qed.

(** A grid of [n] by [m] cells whose cells each hold [c] elements of a
    role holds [n * m * c] of them. *)
Lemma countRole_grid (r : Role) (n m c : nat) (cell : nat -> nat -> list PhysicsBoxProps) :
  (forall x z, countRole r (cell x z) = c) ->
  countRole r (forRange n (fun x => forRange m (fun z => cell x z))) = n * m * c.
Proof.
  intros Hc. unfold countRole. rewrite filter_forRange.
  rewrite (length_forRange n (m * c)); [lia|].
  intros x _. rewrite filter_forRange. apply length_forRange.
  intros z _. apply Hc.
Qed.

Lemma length_grid {A : Type} (n m c : nat) (cell : nat -> nat -> list A) :
  (forall x z, length (cell x z) = c) ->
  length (forRange n (fun x => forRange m (fun z => cell x z))) = n * m * c.
Proof.
  intros Hc. rewrite (length_forRange n (m * c)); [lia|].
  intros x _. apply length_forRange. intros z _. apply Hc.
Qed.

(** ** Counts per story *)

Lemma StorySimple_length level yPos : length (StorySimple level yPos) = 5.
Proof. reflexivity. Qed.

Lemma StoryApartment_roles level yPos roomsX roomsZ :
  countRole Pillar (StoryApartment level yPos roomsX roomsZ) = (roomsX + 1) * (roomsZ + 1)
  /\ countRole Wall (StoryApartment level yPos roomsX roomsZ)
     = roomsX * (roomsZ + 1) + (roomsX + 1) * roomsZ
  /\ countRole Window (StoryApartment level yPos roomsX roomsZ) = 0
  /\ countRole Slab (StoryApartment level yPos roomsX roomsZ) = roomsX * roomsZ
  /\ countRole Debris (StoryApartment level yPos roomsX roomsZ)
     = if Nat.eqb level 0 then 0 else roomsX * roomsZ.
Proof.
  unfold StoryApartment. cbv zeta. rewrite !countRole_app.
  destruct (Nat.eqb level 0); cbn [negb];
    repeat match goal with
      | |- context [countRole ?r (forRange ?n (fun x => forRange ?m (fun z => [@?b x z])))] =>
          rewrite (countRole_grid r n m
                     (countRole r [b 0 0]) (fun x z => [b x z])) by reflexivity
      end; cbn; repeat split; lia.
Qed.

Lemma StoryApartment_length level yPos roomsX roomsZ :
  length (StoryApartment level yPos roomsX roomsZ)
  = (roomsX + 1) * (roomsZ + 1) + roomsX * (roomsZ + 1) + (roomsX + 1) * roomsZ
    + roomsX * roomsZ + (if Nat.eqb level 0 then 0 else roomsX * roomsZ).
Proof.
  unfold StoryApartment. cbv zeta. rewrite !length_app.
  destruct (Nat.eqb level 0); cbn [negb];
    repeat match goal with
      | |- context [length (forRange ?n (fun x => forRange ?m (fun z => [@?b x z])))] =>
          rewrite (length_grid n m 1 (fun x z => [b x z])) by reflexivity
      end; cbn [length]; lia.
Qed.

Lemma StoryBank_length level yPos : length (StoryBank level yPos) = 81.
Proof. reflexivity. Qed.

(** ** Counts per building *)

Lemma Building_length stories type :
  length (Building stories type) = totalLevels stories type.
Proof. unfold Building. now rewrite length_map, length_seq. Qed.

Lemma Building_lookup stories type i :
  i < totalLevels stories type -> Building stories type !! i = Some (Story type i).
Proof.
  intros Hi. unfold Building. rewrite list_lookup_fmap.
  rewrite lookup_seq_lt by exact Hi. reflexivity.
Qed.

Lemma Building_lookup_inv stories type i story :
  Building stories type !! i = Some story ->
  i < totalLevels stories type /\ story = Story type i.
Proof.
  intros Hl. assert (Hi : i < totalLevels stories type).
  { rewrite <- Building_length. eapply lookup_lt_Some, Hl. }
  rewrite Building_lookup in Hl by exact Hi. split; [exact Hi | congruence].
Qed.

Lemma length_concat_map {A : Type} (f : nat -> list A) (c a n : nat) :
  (forall i, a <= i < a + n -> length (f i) = c) ->
  length (concat (map f (seq a n))) = n * c.
Proof.
  revert a. induction n as [|n IH]; intros a Hc; [reflexivity|].
  cbn [seq map concat]. rewrite length_app, Hc by lia.
  rewrite IH by (intros; apply Hc; lia). lia.
Qed.

Lemma Story_apartment_length i :
  length (Story apartment i) = if Nat.eqb i 0 then 49 else 58.
Proof.
  unfold Story. cbn [getGridDimensions fst snd]. rewrite StoryApartment_length.
  destruct (Nat.eqb i 0); reflexivity.
Qed.

Lemma generate_simple_length n : length (generate simple n) = 5 * n.
Proof.
  unfold generate, Building. cbn [totalLevels].
  rewrite (length_concat_map _ 5) by (intros; apply StorySimple_length). lia.
Qed.

Lemma generate_bank_length n : length (generate bank n) = 81 * (n + 1).
Proof.
  unfold generate, Building. cbn [totalLevels].
  rewrite (length_concat_map _ 81) by (intros; apply StoryBank_length). lia.
Qed.

Lemma generate_apartment_length n : length (generate apartment n) = 49 + 58 * n.
Proof.
  unfold generate, Building. cbn [totalLevels].
  replace (n + 1) with (S n) by lia. cbn [seq map concat].
  rewrite length_app, Story_apartment_length. cbn [Nat.eqb].
  rewrite (length_concat_map _ 58); [lia|].
  intros i Hi. rewrite Story_apartment_length.
  destruct i; [lia | reflexivity].
Qed.

(** ** Membership in a story *)

(** Splits a hypothesis [In b story] into one case per element the story
    pushes. *)
Ltac in_story H :=
  repeat match type of H with
    | In _ (_ ++ _) => apply in_app_or in H; destruct H as [H | H]
    | In _ (forRange _ _) => apply in_forRange in H; destruct H as (? & ? & H)
    | In _ (if ?c then _ else _) => destruct c eqn:?
    | In _ (_ :: _) => destruct H as [H | H]
    | In _ [] => destruct H
    end.

Lemma StoryApartment_basement yPos roomsX roomsZ b :
  In b (StoryApartment 0 yPos roomsX roomsZ) ->
  mass b = 50.0%Q /\ material b = basementMaterial /\ hasRole Debris b = false.
Proof.
  unfold StoryApartment. cbv zeta. cbn [Nat.eqb negb]. intros Hb.
  in_story Hb; subst b; repeat split.
Qed.

Lemma StoryApartment_upper level yPos roomsX roomsZ b :
  level <> 0 -> In b (StoryApartment level yPos roomsX roomsZ) ->
  hasRole Debris b = false -> mass b = 20.0%Q /\ material b <> basementMaterial.
Proof.
  intros Hl. unfold StoryApartment. cbv zeta.
  apply Nat.eqb_neq in Hl. rewrite Hl. cbn [negb]. intros Hb Hd.
  in_story Hb; subst b; try discriminate Hd; split; (reflexivity || discriminate).
Qed.

Lemma StoryBank_basement yPos b :
  In b (StoryBank 0 yPos) ->
  match role b with
  | Some Pillar | Some Slab => mass b = 50.0%Q /\ material b = basementMaterial
  | Some Window => mass b = 5.0%Q /\ material b = glassMaterial
  | Some Wall => mass b = 20.0%Q /\ material b = bankWallMaterial
  | _ => False
  end.
Proof.
  unfold StoryBank. cbv zeta. cbn [Nat.eqb]. intros Hb.
  in_story Hb; subst b; cbn; split; reflexivity.
Qed.

Lemma StoryBank_upper level yPos b :
  level <> 0 -> In b (StoryBank level yPos) ->
  match role b with
  | Some Pillar | Some Slab => mass b = 20.0%Q /\ material b <> basementMaterial
  | Some Window => mass b = 5.0%Q /\ material b = glassMaterial
  | Some Wall => mass b = 20.0%Q /\ material b = bankWallMaterial
  | _ => False
  end.
Proof.
  intros Hl. unfold StoryBank. cbv zeta.
  apply Nat.eqb_neq in Hl. rewrite Hl. intros Hb.
  in_story Hb; subst b; cbn; split; (reflexivity || discriminate).
Qed.

Lemma In_generate type n b :
  In b (generate type n) <-> exists i, i < totalLevels n type /\ In b (Story type i).
Proof.
  unfold generate, Building. rewrite in_concat. split.
  - intros (story & Hs & Hb). apply in_map_iff in Hs as (i & <- & Hi).
    apply in_seq in Hi. exists i. split; [lia | exact Hb].
  - intros (i & Hi & Hb). exists (Story type i). split; [|exact Hb].
    apply in_map, in_seq. lia.
Qed.

Lemma StorySimple_elements level yPos b :
  In b (StorySimple level yPos) ->
  (role b = Some Pillar /\ mass b = 0.5%Q /\ material b = pillarSimpleMaterial)
  \/ (role b = Some Slab /\ mass b = 1.0%Q /\ material b = slabSimpleMaterial).
Proof.
  unfold StorySimple. cbv zeta. intros Hb.
  in_story Hb; subst b; cbn; auto.
Qed.

Lemma Story_roles type i :
  countRole Pillar (Story type i)
  = match type with simple => 4 | apartment => 16 | bank => 25 end
  /\ countRole Wall (Story type i)
     = match type with simple => 0 | apartment | bank => 24 end
  /\ countRole Window (Story type i)
     = match type with simple | apartment => 0 | bank => 16 end
  /\ countRole Slab (Story type i)
     = match type with simple => 1 | apartment => 9 | bank => 16 end
  /\ countRole Debris (Story type i)
     = match type with
       | simple | bank => 0
       | apartment => if Nat.eqb i 0 then 0 else 9
       end.
Proof.
  destruct type; unfold Story; cbn [getGridDimensions fst snd].
  - repeat split; reflexivity.
  - apply (StoryApartment_roles i (getFloorY apartment i) 3 3).
  - repeat split; reflexivity.
Qed.

(** ** The claims about the generator *)

(** C3.  The body count follows the closed form of each type's grid:
    [generate simple 4] is exactly 20 rigid bodies, in 4 stories of 4 pillars
    and 1 slab each, none of them a basement story (no body has the basement
    material or the basement mass); a story of an apartment holds
    [(roomsX + 1) * (roomsZ + 1)] pillars, which is 16 in every story that
    [Building] renders, its grid being 3 by 3 rooms. *)
Theorem generate_body_count :
  length (generate simple 4) = 20
  /\ length (Building 4 simple) = 4
  /\ (forall i story, Building 4 simple !! i = Some story ->
        length story = 5 /\ countRole Pillar story = 4 /\ countRole Slab story = 1)
  /\ (forall b, In b (generate simple 4) ->
        material b <> basementMaterial /\ mass b <> 50.0%Q)
  /\ (forall level yPos roomsX roomsZ,
        countRole Pillar (StoryApartment level yPos roomsX roomsZ)
        = (roomsX + 1) * (roomsZ + 1))
  /\ (forall stories i story, Building stories apartment !! i = Some story ->
        countRole Pillar story = 16)
  /\ (forall n, length (generate simple n) = 5 * n
                /\ length (generate apartment n) = 49 + 58 * n
                /\ length (generate bank n) = 81 * (n + 1)).
Proof.
  split; [apply (generate_simple_length 4)|].
  split; [apply Building_length|].
  split.
  { intros i story Hs. apply Building_lookup_inv in Hs as [_ ->].
    destruct (Story_roles simple i) as (Hp & _ & _ & Hsl & _).
    split; [apply StorySimple_length | split; assumption]. }
  split.
  { intros b Hb. apply In_generate in Hb as (i & _ & Hb).
    change (In b (StorySimple i (getFloorY simple i))) in Hb.
    destruct (StorySimple_elements _ _ _ Hb) as [(_ & Hm & Hmat) | (_ & Hm & Hmat)];
      rewrite Hm, Hmat; split; discriminate. }
  split.
  { intros level yPos roomsX roomsZ.
    apply (StoryApartment_roles level yPos roomsX roomsZ). }
  split.
  { intros stories i story Hs. apply Building_lookup_inv in Hs as [_ ->].
    apply (Story_roles apartment i). }
  intros n. split; [apply generate_simple_length|].
  split; [apply generate_apartment_length | apply generate_bank_length].
Qed.

(** C4, as the code has it.  Level 0 of an apartment or a bank is the
    basement story.  In the apartment every body of it has mass 50 and the
    basement material.  In the bank its pillars and slabs have mass 50 and the
    basement material, while its window panels are glass of mass 5, as on
    every other level.  Mass 50 is 2.5 times the mass 20 that the same bodies
    have on the levels above.  No basement story holds a debris cube. *)
Theorem basement_story :
  (forall stories,
     Building stories apartment !! 0 = Some (StoryApartment 0 0 3 3)
     /\ Building stories bank !! 0 = Some (StoryBank 0 0))
  /\ (forall yPos roomsX roomsZ b, In b (StoryApartment 0 yPos roomsX roomsZ) ->
        mass b = 50.0%Q /\ material b = basementMaterial)
  /\ (forall yPos b, In b (StoryBank 0 yPos) ->
        role b = Some Pillar \/ role b = Some Slab ->
        mass b = 50.0%Q /\ material b = basementMaterial)
  /\ (forall level yPos b, In b (StoryBank level yPos) -> role b = Some Window ->
        mass b = 5.0%Q /\ material b = glassMaterial)
  /\ (forall level yPos roomsX roomsZ b, level <> 0 ->
        In b (StoryApartment level yPos roomsX roomsZ) -> role b <> Some Debris ->
        mass b = 20.0%Q /\ material b <> basementMaterial)
  /\ (forall level yPos b, level <> 0 -> In b (StoryBank level yPos) ->
        role b = Some Pillar \/ role b = Some Slab ->
        mass b = 20.0%Q /\ material b <> basementMaterial)
  /\ (50.0 == 2.5 * 20.0)%Q
  /\ (forall yPos roomsX roomsZ, countRole Debris (StoryApartment 0 yPos roomsX roomsZ) = 0)
  /\ (forall level yPos, countRole Debris (StoryBank level yPos) = 0).
Proof.
  split.
  { intros stories. split; rewrite Building_lookup by (cbn; lia); reflexivity. }
  split.
  { intros yPos roomsX roomsZ b Hb.
    apply StoryApartment_basement in Hb as (Hm & Hmat & _). now split. }
  split.
  { intros yPos b Hb Hr. apply StoryBank_basement in Hb.
    destruct Hr as [Hr | Hr]; rewrite Hr in Hb; exact Hb. }
  split.
  { intros level yPos b Hb Hr. destruct level as [|level].
    - apply StoryBank_basement in Hb. rewrite Hr in Hb. exact Hb.
    - apply StoryBank_upper in Hb; [|discriminate]. rewrite Hr in Hb. exact Hb. }
  split.
  { intros level yPos roomsX roomsZ b Hl Hb Hr.
    apply (StoryApartment_upper level yPos roomsX roomsZ b Hl Hb).
    unfold hasRole. destruct (role b) as [[]|]; try reflexivity. now elim Hr. }
  split.
  { intros level yPos b Hl Hb Hr. apply (StoryBank_upper level yPos b Hl) in Hb.
    destruct Hr as [Hr | Hr]; rewrite Hr in Hb; exact Hb. }
  split; [reflexivity|].
  split.
  { intros yPos roomsX roomsZ.
    apply (StoryApartment_roles 0 yPos roomsX roomsZ). }
  intros level yPos. reflexivity.
Qed.

(** C4, as stated, fails on the bank: the first X-axis panel of its basement
    story is a window of glass with mass 5. *)
Lemma bank_basement_has_light_glass :
  ~ (forall type stories story b,
       type <> simple -> Building stories type !! 0 = Some story -> In b story ->
       (mass b == 50)%Q /\ material b = basementMaterial).
Proof.
  intros Hall.
  assert (Hs : Building 10 bank !! 0 = Some (StoryBank 0 0)).
  { rewrite Building_lookup by (cbn; lia). reflexivity. }
  assert (Hb : exists b, In b (StoryBank 0 0) /\ material b = glassMaterial)
    by (eexists; split; [do 25 right; left; reflexivity | reflexivity]).
  destruct Hb as (b & Hb & Hg).
  destruct (Hall bank 10 _ b ltac:(discriminate) Hs Hb) as [_ Hmat].
  congruence.
Qed.

(** C6, as the code has it.  With no stories the simple building is empty;
    an apartment or a bank still renders its basement level, 49 and 81 bodies.
    The generator is a total function, so no count makes it fail. *)
Theorem generate_no_stories :
  generate simple 0 = []
  /\ generate apartment 0 = StoryApartment 0 0 3 3
  /\ length (generate apartment 0) = 49
  /\ generate bank 0 = StoryBank 0 0
  /\ length (generate bank 0) = 81.
Proof.
  split; [reflexivity|].
  split.
  { unfold generate, Building. cbn [totalLevels Nat.add seq map concat].
    rewrite app_nil_r. reflexivity. }
  split; [apply (generate_apartment_length 0)|].
  split.
  { unfold generate, Building. cbn [totalLevels Nat.add seq map concat].
    rewrite app_nil_r. reflexivity. }
  apply (generate_bank_length 0).
Qed.

(** C6, as stated, fails: an apartment of no stories is not empty. *)
Lemma generate_no_stories_not_empty :
  ~ (forall type, generate type 0 = []).
Proof.
  intros Hall. specialize (Hall apartment).
  apply (f_equal (@length _)) in Hall.
  rewrite generate_apartment_length in Hall. discriminate Hall.
Qed.

(** C9, as the code has it.  Every story of every type holds pillars and
    floor slabs.  A story of the simple type holds nothing else: 4 pillars and
    1 slab.  A story of an apartment holds 16 pillars, 24 walls, 9 slabs and,
    above the basement, 9 debris cubes.  A story of a bank holds 25 pillars,
    24 walls, 16 window panels and 16 slabs, and never a debris cube. *)
Theorem story_contents (type : BuildingType) (i : nat) :
  let count r := countRole r (Story type i) in
  0 < count Pillar /\ 0 < count Slab
  /\ match type with
     | simple =>
         count Pillar = 4 /\ count Slab = 1
         /\ count Wall = 0 /\ count Window = 0 /\ count Debris = 0
     | apartment =>
         count Pillar = 16 /\ count Slab = 9
         /\ count Wall = 24 /\ count Window = 0
         /\ count Debris = (if isBasementLevel apartment i then 0 else 9)
     | bank =>
         count Pillar = 25 /\ count Slab = 16
         /\ count Wall = 24 /\ count Window = 16 /\ count Debris = 0
     end.
Proof.
  intros count. subst count.
  destruct (Story_roles type i) as (Hp & Hw & Hn & Hs & Hd).
  rewrite Hp, Hw, Hn, Hs, Hd.
  destruct type; cbn [isBasementLevel]; repeat split; lia.
Qed.

(** C9, as stated, fails: the second story of the simple building, which is
    no basement, has neither a wall nor a debris cube. *)
Lemma simple_story_has_no_wall_or_debris :
  ~ (forall type stories i story,
       Building stories type !! i = Some story -> isBasementLevel type i = false ->
       0 < countRole Pillar story /\ 0 < countRole Wall story
       /\ 0 < countRole Slab story /\ 0 < countRole Debris story).
Proof.
  intros Hall.
  destruct (Hall simple 4 1 (Story simple 1)) as (_ & Hw & _).
  - apply Building_lookup. cbn. lia.
  - reflexivity.
  - destruct (Story_roles simple 1) as (_ & Hwall & _).
    rewrite Hwall in Hw. lia.
Qed.

(** C10, as the code has it.  An apartment or a bank renders
    [stories + 1] levels, the extra one being the basement at index 0; the
    simple type renders [stories] levels.  The bank holds 81 bodies per level,
    [81 * (stories + 1)] in all; the apartment holds 58 per level but for the
    9 debris cubes its basement lacks, [58 * (stories + 1) - 9] in all; the
    simple building holds [5 * stories]. *)
Theorem Building_levels (stories : nat) :
  length (Building stories apartment) = stories + 1
  /\ length (Building stories bank) = stories + 1
  /\ length (Building stories simple) = stories
  /\ Building stories apartment !! 0 = Some (StoryApartment 0 0 3 3)
  /\ Building stories bank !! 0 = Some (StoryBank 0 0)
  /\ (forall i, isBasementLevel apartment i = Nat.eqb i 0
                /\ isBasementLevel bank i = Nat.eqb i 0
                /\ isBasementLevel simple i = false)
  /\ length (generate bank stories) = 81 * (stories + 1)
  /\ length (generate apartment stories) = 58 * (stories + 1) - 9
  /\ length (generate simple stories) = 5 * stories.
Proof.
  repeat split; try apply Building_length.
  - rewrite Building_lookup by (cbn; lia). reflexivity.
  - rewrite Building_lookup by (cbn; lia). reflexivity.
  - apply generate_bank_length.
  - rewrite generate_apartment_length. lia.
  - apply generate_simple_length.
Qed.

(** C10, as stated, fails in its last part: the body count of an apartment
    is no multiple of [stories + 1] by a fixed factor (49 bodies for no story,
    107 for one). *)
Lemma apartment_count_not_proportional :
  ~ (exists k, forall stories, length (generate apartment stories) = k * (stories + 1)).
Proof.
  intros (k & Hk).
  pose proof (Hk 0) as H0. pose proof (Hk 1) as H1.
  rewrite generate_apartment_length in H0, H1. lia.
Qed.

(** * Properties of the excitation controller *)

#[local] Open Scope Q_scope.

(** The setters commute with the fields they leave alone; the two sound
    functions write the audio ref only. *)
Lemma AppState_eta s :
  s = {| config := config s; resetKey := resetKey s; isQuaking := isQuaking s;
         quakePower := quakePower s; isPaused := isPaused s;
         customDuration := customDuration s;
         timeoutRef := timeoutRef s; pWaveTimeoutRef := pWaveTimeoutRef s;
         audioContextRef := audioContextRef s;
         timers := timers s; nextTimer := nextTimer s;
         hasAudioContext := hasAudioContext s |}.
Proof. now destruct s. Qed.

Lemma stopEarthquakeSound_eq s :
  stopEarthquakeSound s = setAudioContextRef None s.
Proof.
  unfold stopEarthquakeSound, setAudioContextRef.
  destruct (audioContextRef s) eqn:Ha; [reflexivity|].
  rewrite <- Ha. apply AppState_eta.
Qed.

Lemma playEarthquakeSound_eq duration power s :
  playEarthquakeSound duration power s
  = setAudioContextRef
      (if hasAudioContext s then Some (soundOf duration power) else None) s.
Proof.
  unfold playEarthquakeSound. rewrite stopEarthquakeSound_eq.
  cbn [hasAudioContext setAudioContextRef].
  destruct (hasAudioContext s); reflexivity.
Qed.

Lemma clearIfSet_eq ref s :
  clearIfSet ref s = setTimers (clearedTimers ref (timers s)) s.
Proof.
  destruct ref; [reflexivity|]. cbn [clearIfSet clearedTimers].
  unfold setTimers. apply AppState_eta.
Qed.

Ltac app_norm :=
  rewrite ?playEarthquakeSound_eq, ?stopEarthquakeSound_eq, ?clearIfSet_eq;
  cbn [config resetKey isQuaking quakePower isPaused customDuration timeoutRef
       pWaveTimeoutRef audioContextRef timers nextTimer hasAudioContext
       setConfig setResetKey setIsQuaking setQuakePower setIsPaused
       setCustomDuration setTimeoutRef setPWaveTimeoutRef setAudioContextRef
       setTimers setNextTimer setTimeout clearTimeout fst snd type stories].

Lemma handleRebuild_eq s :
  handleRebuild s =
  {| config := config s; resetKey := (resetKey s + 1)%nat; isQuaking := false;
     quakePower := quakePower s; isPaused := false;
     customDuration := customDuration s;
     timeoutRef := timeoutRef s; pWaveTimeoutRef := pWaveTimeoutRef s;
     audioContextRef := None;
     timers := clearedTimers (pWaveTimeoutRef s) (clearedTimers (timeoutRef s) (timers s));
     nextTimer := nextTimer s;
     hasAudioContext := hasAudioContext s |}.
Proof. unfold handleRebuild. app_norm. repeat (app_norm; try reflexivity). Qed.
Lemma handleEarthquake_single duration power r s :
  (type (config s) <> bank \/ Qle_bool 1.4 power = false) ->
  handleEarthquake duration power r s =
  {| config := config s; resetKey := resetKey s; isQuaking := true;
     quakePower := power; isPaused := isPaused s;
     customDuration := customDuration s;
     timeoutRef := Some (nextTimer s); pWaveTimeoutRef := pWaveTimeoutRef s;
     audioContextRef :=
       if hasAudioContext s then Some (soundOf duration power) else None;
     timers :=
       <[nextTimer s := mkTimer duration endQuake]>
         (clearedTimers (pWaveTimeoutRef s) (clearedTimers (timeoutRef s) (timers s)));
     nextTimer := Pos.succ (nextTimer s);
     hasAudioContext := hasAudioContext s |}.
Proof.
  intros Hc. unfold handleEarthquake. app_norm.
  destruct (type (config s)) eqn:Ht, (Qle_bool 1.4 power) eqn:Hp;
    try (destruct Hc as [Hc | Hc]; [now elim Hc | discriminate Hc]);
    app_norm; reflexivity.
Qed.

Lemma handleEarthquake_split duration power r s :
  type (config s) = bank -> Qle_bool 1.4 power = true ->
  let pWaveDuration := duration * (0.30 + r * 0.10) in
  let sWaveDuration := duration - pWaveDuration in
  handleEarthquake duration power r s =
  {| config := config s; resetKey := resetKey s; isQuaking := true;
     quakePower := 0.5; isPaused := isPaused s;
     customDuration := customDuration s;
     timeoutRef := Some (Pos.succ (nextTimer s));
     pWaveTimeoutRef := Some (nextTimer s);
     audioContextRef :=
       if hasAudioContext s then Some (soundOf (pWaveDuration + 500) 0.5) else None;
     timers :=
       <[Pos.succ (nextTimer s) := mkTimer duration endQuake]>
         (<[nextTimer s := mkTimer pWaveDuration (startSWave power sWaveDuration)]>
            (clearedTimers (pWaveTimeoutRef s) (clearedTimers (timeoutRef s) (timers s))));
     nextTimer := Pos.succ (Pos.succ (nextTimer s));
     hasAudioContext := hasAudioContext s |}.
Proof.
  intros Ht Hp. unfold handleEarthquake. app_norm. rewrite Ht, Hp.
  app_norm. reflexivity.
Qed.

Lemma fireTimer_eq id s :
  fireTimer id s =
  match timers s !! id with
  | Some (mkTimer _ (startSWave power sWaveDuration)) =>
      setAudioContextRef
        (if hasAudioContext s then Some (soundOf sWaveDuration power) else None)
        (setQuakePower power (setTimers (delete id (timers s)) s))
  | Some (mkTimer _ endQuake) => setIsQuaking false (setTimers (delete id (timers s)) s)
  | None => s
  end.
Proof.
  unfold fireTimer. destruct (timers s !! id) as [[d [p sd|]]|]; cbn [callback runCallback];
    app_norm; reflexivity.
Qed.

(** ** The pending timers are the ones the refs hold *)

Lemma clearedTimers_lookup ref (t : gmap positive Timer) id :
  clearedTimers ref t !! id = if decide (ref = Some id) then None else t !! id.
Proof.
  destruct ref as [id'|]; cbn [clearedTimers].
  - rewrite lookup_delete. destruct (decide (id' = id)) as [->|Hne].
    + now rewrite decide_True.
    + rewrite decide_False; [reflexivity | congruence].
  - now rewrite decide_False.
Qed.

Lemma timersTracked_cleared s :
  timersTracked s ->
  clearedTimers (pWaveTimeoutRef s) (clearedTimers (timeoutRef s) (timers s)) = ∅.
Proof.
  intros (Hheld & _ & _). apply map_empty. intros id.
  rewrite !clearedTimers_lookup.
  destruct (decide (pWaveTimeoutRef s = Some id)) as [|Hp]; [reflexivity|].
  destruct (decide (timeoutRef s = Some id)) as [|Ht]; [reflexivity|].
  apply eq_None_not_Some. intros Hsome.
  destruct (Hheld id Hsome); contradiction.
Qed.

Lemma timersTracked_initial audio : timersTracked (initialApp audio).
Proof.
  repeat split; cbn; intros id H; try discriminate H.
  rewrite lookup_empty in H. now destruct H.
Qed.

(** A step that arms no timer and moves no ref keeps the invariant. *)
Lemma timersTracked_shrink s s' :
  (forall id, is_Some (timers s' !! id) -> is_Some (timers s !! id)) ->
  timeoutRef s' = timeoutRef s -> pWaveTimeoutRef s' = pWaveTimeoutRef s ->
  nextTimer s' = nextTimer s ->
  timersTracked s -> timersTracked s'.
Proof.
  intros Hsub Ht Hp Hn (Hheld & Hlt & Hlp). unfold timersTracked.
  rewrite Ht, Hp, Hn. repeat split; auto.
Qed.

Lemma handleRebuild_tracked s : timersTracked s -> timersTracked (handleRebuild s).
Proof.
  intros Hs. rewrite handleRebuild_eq, timersTracked_cleared by exact Hs.
  destruct Hs as (_ & Hlt & Hlp).
  repeat split; cbn; auto. intros id H. rewrite lookup_empty in H. now destruct H.
Qed.

Lemma handleEarthquake_tracked duration power r s :
  timersTracked s -> timersTracked (handleEarthquake duration power r s).
Proof.
  intros Hs. pose proof (timersTracked_cleared s Hs) as Hclr.
  destruct Hs as (_ & Hlt & Hlp).
  destruct (type (config s)) eqn:Ht, (Qle_bool 1.4 power) eqn:Hp;
    try (rewrite handleEarthquake_single by (rewrite Ht; auto || (left; discriminate));
         rewrite Hclr; repeat split; cbn;
         [ intros id [t Hid]; apply lookup_insert_Some in Hid as [[<- _] | [_ Hid]];
           [now left | now rewrite lookup_empty in Hid]
         | intros id [= <-]; lia
         | intros id Hid; specialize (Hlp id Hid); lia ]).
  rewrite handleEarthquake_split by assumption. rewrite Hclr.
  repeat split; cbn.
  - intros id [t Hid].
    apply lookup_insert_Some in Hid as [[<- _] | [_ Hid]]; [now left|].
    apply lookup_insert_Some in Hid as [[<- _] | [_ Hid]]; [now right|].
    now rewrite lookup_empty in Hid.
  - intros id [= <-]. lia.
  - intros id [= <-]. lia.
Qed.

Lemma typeEffect_eq before s :
  typeEffect before s = s \/ exists d, typeEffect before s = setCustomDuration d s.
Proof.
  unfold typeEffect. destruct before, (type (config s)); eauto.
Qed.

Lemma timersTracked_step e s : timersTracked s -> timersTracked (appStep e s).
Proof.
  intros Hs. destruct e as [n t | | | b r | v | id]; cbn [appStep].
  - assert (Hr : timersTracked (handleConfigChange n t s)).
    { unfold handleConfigChange. apply handleRebuild_tracked.
      revert Hs. apply timersTracked_shrink; auto. }
    destruct (typeEffect_eq (type (config s)) (handleConfigChange n t s))
      as [-> | [d ->]]; [exact Hr|].
    revert Hr. apply timersTracked_shrink; auto.
  - now apply handleRebuild_tracked.
  - revert Hs. apply timersTracked_shrink; auto.
  - unfold clickQuake. destruct (rendered b s && negb (disabled b s)); [|exact Hs].
    destruct (onClickArgs b s). now apply handleEarthquake_tracked.
  - revert Hs. apply timersTracked_shrink; auto.
  - rewrite fireTimer_eq.
    destruct (timers s !! id) as [[d [p sd|]]|] eqn:Hid; [| |exact Hs];
      revert Hs; apply timersTracked_shrink; auto; cbn;
      intros j [t Hj]; apply lookup_delete_Some in Hj as [_ Hj]; eauto.
Qed.

Lemma appReachable_tracked s : appReachable s -> timersTracked s.
Proof.
  induction 1 as [audio | e s _ IH];
    [apply timersTracked_initial | now apply timersTracked_step].
Qed.

Lemma reachable_app `{JsMath} w :
  reachable w -> appReachable (app w) /\ mountedKey w = resetKey (app w).
Proof.
  induction 1 as [audio | e w _ [IHa IHk]].
  - split; [constructor | reflexivity].
  - destruct e as [e | i]; cbn [worldStep].
    + unfold render. cbn [app mountedKey].
      destruct (Nat.eqb (resetKey (appStep e (app w))) (mountedKey w)) eqn:Hk;
        cbn [app mountedKey]; (split; [now constructor|]).
      * symmetry. now apply Nat.eqb_eq.
      * reflexivity.
    + cbn [app mountedKey]. now split.
Qed.

(** ** The claims about the excitation controller *)

(** C1.  While a quake is active every quake button is disabled, so a
    trigger issued then, a click on any of the buttons whatever duration and
    power it carries, is a no-op: the state is the one before the click, with
    its active flag, its power, its refs and all its pending timers. *)
Theorem quake_button_while_active (b : QuakeButton) (r : Q) (s : AppState) :
  isQuaking s = true ->
  disabled b s = true
  /\ clickQuake b r s = s
  /\ appStep (ClickQuake b r) s = s.
Proof.
  intros Hq.
  assert (Hclick : clickQuake b r s = s).
  { unfold clickQuake, disabled. rewrite Hq, andb_false_r. reflexivity. }
  split; [exact Hq|]. split; exact Hclick.
Qed.

(** The hypothesis of C1 holds one click into a quake: the second quake
    button then does nothing. *)
Lemma quake_button_while_active_witness :
  isQuaking simpleQuaking = true
  /\ appStep (ClickQuake quake10s 0) simpleQuaking = simpleQuaking.
Proof.
  split; [reflexivity|].
  apply (quake_button_while_active quake10s 0 simpleQuaking). reflexivity.
Defined.

(** C2.  On the bank, a trigger of power at least 1.4 splits the duration:
    the P-wave lasts [duration * ratio] with [ratio = 0.30 + r * 0.10] in
    [0.30, 0.40) for the random [r] of the trigger, at power 0.5; the timer
    armed with that delay then sets the requested power for the S-wave, which
    lasts the remainder [duration - pWaveDuration]; the two durations add up
    to [duration], and the timer that ends the quake is armed with exactly
    [duration].  From a reachable state no other timer is pending. *)
Theorem bank_quake_two_phases (duration power r : Q) (s : AppState) :
  type (config s) = bank -> 1.4 <= power -> 0 <= r < 1 ->
  let pWaveRatio := 0.30 + r * 0.10 in
  let pWaveDuration := duration * pWaveRatio in
  let sWaveDuration := duration - pWaveDuration in
  let s1 := handleEarthquake duration power r s in
  let idP := nextTimer s in
  let idE := Pos.succ (nextTimer s) in
  let s2 := fireTimer idP s1 in
  let s3 := fireTimer idE s2 in
  0.30 <= pWaveRatio < 0.40
  /\ pWaveDuration + sWaveDuration == duration
  /\ (isQuaking s1 = true /\ quakePower s1 = 0.5 /\ phase s1 = PWave
      /\ pWaveTimeoutRef s1 = Some idP /\ timeoutRef s1 = Some idE
      /\ timers s1 !! idP = Some (mkTimer pWaveDuration (startSWave power sWaveDuration))
      /\ timers s1 !! idE = Some (mkTimer duration endQuake))
  /\ (isQuaking s2 = true /\ quakePower s2 = power /\ phase s2 = SWave
      /\ timers s2 !! idP = None
      /\ timers s2 !! idE = Some (mkTimer duration endQuake))
  /\ (isQuaking s3 = false /\ phase s3 = NoQuake /\ timers s3 !! idE = None)
  /\ (appReachable s ->
      forall id, is_Some (timers s1 !! id) -> id = idP \/ id = idE).
Proof.
  intros Ht Hp Hr pWaveRatio pWaveDuration sWaveDuration s1 idP idE s2 s3.
  apply Qle_bool_iff in Hp.
  assert (Hs1 := handleEarthquake_split duration power r s Ht Hp).
  cbv zeta in Hs1. fold pWaveRatio pWaveDuration sWaveDuration s1 idP idE in Hs1.
  assert (Hne : idP <> idE) by (subst idP idE; lia).
  assert (HP : timers s1 !! idP
               = Some (mkTimer pWaveDuration (startSWave power sWaveDuration))).
  { rewrite Hs1. cbn [timers]. rewrite lookup_insert_ne by auto.
    apply lookup_insert_eq. }
  assert (HE : timers s1 !! idE = Some (mkTimer duration endQuake)).
  { rewrite Hs1. cbn [timers]. apply lookup_insert_eq. }
  assert (Hs2 : s2 = setAudioContextRef
                  (if hasAudioContext s1 then Some (soundOf sWaveDuration power) else None)
                  (setQuakePower power (setTimers (delete idP (timers s1)) s1))).
  { subst s2. rewrite fireTimer_eq, HP. reflexivity. }
  assert (HE2 : timers s2 !! idE = Some (mkTimer duration endQuake)).
  { rewrite Hs2. cbn. rewrite lookup_delete_ne by auto. exact HE. }
  assert (HP2 : timers s2 !! idP = None).
  { rewrite Hs2. cbn. apply lookup_delete_eq. }
  assert (Hs3 : s3 = setIsQuaking false (setTimers (delete idE (timers s2)) s2)).
  { subst s3. rewrite fireTimer_eq, HE2. reflexivity. }
  assert (F1 : isQuaking s1 = true /\ quakePower s1 = 0.5
               /\ pWaveTimeoutRef s1 = Some idP /\ timeoutRef s1 = Some idE)
    by (rewrite Hs1; repeat split).
  destruct F1 as (Hq1 & Hw1 & Hp1 & Ht1).
  assert (F2 : isQuaking s2 = isQuaking s1 /\ quakePower s2 = power
               /\ pWaveTimeoutRef s2 = pWaveTimeoutRef s1)
    by (rewrite Hs2; repeat split).
  destruct F2 as (Hq2 & Hw2 & Hp2).
  assert (F3 : isQuaking s3 = false /\ timers s3 = delete idE (timers s2))
    by (rewrite Hs3; repeat split).
  destruct F3 as (Hq3 & Htm3).
  split; [subst pWaveRatio; lra|].
  split; [subst pWaveDuration sWaveDuration; ring|].
  split.
  { unfold phase. rewrite Hq1, Hp1, HP. repeat split; assumption. }
  split.
  { unfold phase. rewrite Hq2, Hq1, Hp2, Hp1, HP2. repeat split; assumption. }
  split.
  { unfold phase. rewrite Hq3, Htm3. repeat split. apply lookup_delete_eq. }
  intros Hreach id [t Hid].
  rewrite Hs1 in Hid. cbn [timers] in Hid.
  rewrite (timersTracked_cleared s (appReachable_tracked s Hreach)) in Hid.
  apply lookup_insert_Some in Hid as [[<- _] | [_ Hid]]; [now right|].
  apply lookup_insert_Some in Hid as [[<- _] | [_ Hid]]; [now left|].
  now rewrite lookup_empty in Hid.
Qed.

(** C2 at the bank, for 30 seconds at power 1.4 with the random value
    0.5. *)
Lemma bank_quake_two_phases_witness :
  quakePower (handleEarthquake 30000 1.4 0.5 bankApp) = 0.5
  /\ quakePower (fireTimer 1 (handleEarthquake 30000 1.4 0.5 bankApp)) = 1.4
  /\ isQuaking (fireTimer 2 (fireTimer 1 (handleEarthquake 30000 1.4 0.5 bankApp))) = false.
Proof.
  destruct (bank_quake_two_phases 30000 1.4 0.5 bankApp)
    as (_ & _ & (_ & H1 & _) & (_ & H2 & _) & (H3 & _) & _).
  - reflexivity.
  - apply Qle_bool_iff. reflexivity.
  - split; [apply Qle_bool_iff|]; reflexivity.
  - repeat split; assumption.
Defined.

(** C5.  In every state the application can reach, whatever its phase,
    Rebuild leaves the quake inactive, leaves no timer pending (it cancels
    the two the refs hold, and no other is ever pending), and puts the floor
    at its rest pose (0, -1.1, 0): the scene is mounted anew with the floor
    body at that position, and every frame after it sets that position
    again. *)
Theorem rebuild_resets `{JsMath} (w : World) :
  reachable w ->
  let w' := worldStep (UI ClickRebuild) w in
  isQuaking (app w') = false /\ phase (app w') = NoQuake
  /\ timers (app w') = ∅
  /\ (forall id, timeoutRef (app w) = Some id \/ pWaveTimeoutRef (app w) = Some id ->
        timers (app w') !! id = None)
  /\ floor w' = mountFloor
  /\ floorPosition (floor w') = (0, -1.1, 0)
  /\ (forall i, floorPosition (floor (worldStep (Frame i) w')) = (0, -1.1, 0)).
Proof.
  intros Hw w'. destruct (reachable_app w Hw) as [Ha Hk].
  pose proof (timersTracked_cleared _ (appReachable_tracked _ Ha)) as Hclr.
  assert (Happ : app w' = handleRebuild (app w)).
  { subst w'. cbn [worldStep appStep]. unfold render. cbn [app mountedKey].
    now destruct (Nat.eqb _ _). }
  assert (Hfloor : floor w' = mountFloor).
  { subst w'. cbn [worldStep appStep]. unfold render. cbn [app mountedKey floor].
    rewrite handleRebuild_eq. cbn [resetKey]. rewrite Hk.
    replace (Nat.eqb (resetKey (app w) + 1) (resetKey (app w))) with false
      by (symmetry; apply Nat.eqb_neq; lia).
    reflexivity. }
  assert (Hq : isQuaking (app w') = false)
    by (rewrite Happ, handleRebuild_eq; reflexivity).
  assert (Ht : timers (app w') = ∅)
    by (rewrite Happ, handleRebuild_eq; exact Hclr).
  split; [exact Hq|].
  split; [unfold phase; now rewrite Hq|].
  split; [exact Ht|].
  split; [intros id _; rewrite Ht; apply lookup_empty|].
  split; [exact Hfloor|].
  split; [now rewrite Hfloor|].
  intros i. cbn [worldStep floor]. rewrite Hq. reflexivity.
Qed.

(** C5 in each of the three phases. *)
Lemma rebuild_resets_witness :
  (phase (app idleWorld) = NoQuake
   /\ floorPosition (floor (worldStep (H := smallAngles) (UI ClickRebuild) idleWorld))
      = (0, -1.1, 0))
  /\ (phase (app pWaveWorld) = PWave
      /\ timers (app (worldStep (H := smallAngles) (UI ClickRebuild) pWaveWorld)) = ∅)
  /\ (phase (app sWaveWorld) = SWave
      /\ isQuaking (app (worldStep (H := smallAngles) (UI ClickRebuild) sWaveWorld)) = false
      /\ floorPosition (floor (worldStep (H := smallAngles) (UI ClickRebuild) sWaveWorld))
         = (0, -1.1, 0)).
Proof.
  split; [|split].
  - split; [reflexivity|].
    apply (rebuild_resets (H := smallAngles) idleWorld). constructor.
  - split; [reflexivity|].
    apply (rebuild_resets (H := smallAngles) pWaveWorld). repeat constructor.
  - split; [reflexivity|].
    destruct (rebuild_resets (H := smallAngles) sWaveWorld) as (Hq & _ & _ & _ & _ & Hf & _).
    + repeat constructor.
    + split; assumption.
Defined.

(** The clock of the shaking runs 25 times as fast as the frames. *)
Lemma timeRef_quakeFrames `{JsMath} quakePower frames f :
  timeRef (fold_left (quakeFrame quakePower) frames f)
  == timeRef f + elapsed frames * 25.
Proof.
  revert f. induction frames as [|i frames IH]; intros f.
  - cbn. ring.
  - cbn [fold_left]. rewrite IH.
    change (elapsed (i :: frames)) with (frameDelta i + elapsed frames).
    unfold quakeFrame, Floor_useFrame. cbn [timeRef]. ring.
Qed.

(** C7, as the code has it.  In a frame of an active quake the clock [t]
    advances by the frame time times 25 and the floor is put at
    [x = sin(t) * A + noise], [z = cos(0.9 t) * A + noise],
    [y = -1.1 + sin(1.5 t) * Av + noise] with [A = 1.0 * power],
    [Av = 0.4 * power], horizontal noise [(random - 0.5) * 0.6 * power] and
    vertical noise [(random - 0.5) * 0.3 * power].  All four factors scale
    linearly with the power, the vertical noise included, and so does the
    offset of the floor from its rest pose.  Over any run of such frames the
    clock has advanced by 25 times their total frame time. *)
Theorem floor_motion_law `{JsMath} (quakePower delta r1 r2 r3 : Q) (f : FloorState) :
  let f' := Floor_useFrame true quakePower delta r1 r2 r3 f in
  let t := timeRef f' in
  t = timeRef f + delta * 25
  /\ floorX f' = Math_sin t * intensityX quakePower + (r1 - 0.5) * noiseFactor quakePower
  /\ floorZ f' = Math_cos (t * 0.9) * intensityX quakePower
                 + (r2 - 0.5) * noiseFactor quakePower
  /\ floorY f' = -1.1 + Math_sin (t * 1.5) * intensityY quakePower
                 + (r3 - 0.5) * verticalNoiseFactor quakePower
  /\ (forall k,
        intensityX (k * quakePower) == k * intensityX quakePower
        /\ intensityY (k * quakePower) == k * intensityY quakePower
        /\ noiseFactor (k * quakePower) == k * noiseFactor quakePower
        /\ verticalNoiseFactor (k * quakePower) == k * verticalNoiseFactor quakePower)
  /\ (forall k,
        let g := Floor_useFrame true (k * quakePower) delta r1 r2 r3 f in
        floorX g == k * floorX f' /\ floorZ g == k * floorZ f'
        /\ floorY g - -1.1 == k * (floorY f' - -1.1))
  /\ (forall frames,
        timeRef (fold_left (quakeFrame quakePower) frames f)
        == timeRef f + elapsed frames * 25).
Proof.
  intros f' t. subst t f'.
  split; [reflexivity|]. split; [reflexivity|].
  split; [reflexivity|]. split; [reflexivity|].
  split.
  { intros k. unfold intensityX, intensityY, noiseFactor, verticalNoiseFactor.
    repeat split; ring. }
  split.
  { intros k g. subst g.
    unfold floorX, floorY, floorZ, Floor_useFrame. cbn [floorPosition timeRef fst snd].
    unfold intensityX, intensityY, noiseFactor, verticalNoiseFactor.
    repeat split; ring. }
  intros frames. apply timeRef_quakeFrames.
Qed.

(** C7, as stated, fails in its last part: doubling the power doubles the
    factor of the vertical noise (0.3 to 0.6); it does not quadruple it. *)
Lemma vertical_noise_not_quadratic :
  ~ (forall quakePower k,
       verticalNoiseFactor (k * quakePower) == k * k * verticalNoiseFactor quakePower).
Proof.
  intros Hall. specialize (Hall 1 2). vm_compute in Hall. discriminate Hall.
Qed.

(** * Properties of the drag provider *)

Section DragProperties.
Context `{Three}.

Ltac drag_norm :=
  cbn [heap nextLoc objects dragState orbitEnabled cursorConstraint
       setDragState setOrbitEnabled setCursorConstraint setObjects
       writeVector3 newVector3 pivot ref ownRef fst snd default from_option
       props cursorPosition cursorApiPosition constraintTarget pivotA pivotB
       initialDistance startPos endPos worldPivot linePositions moveCursor id].

(** A pointer-down makes one vector, the pivot, and sets the drag state;
    it leaves the mounted components alone. *)
Lemma onPointerDown_fields e w :
  exists h,
    onPointerDown e w
    = mkDrag h (Pos.succ (nextLoc w)) (objects w)
        (Some (mkSession (default (object e) (childRef e)) (nextLoc w)
                 (match childRef e with Some _ => true | None => false end)))
        false (cursorConstraint w)
    /\ h !! nextLoc w
       = Some (match objects w !! object e with
               | Some o => worldToLocal o (point e)
               | None => point e
               end).
Proof.
  unfold onPointerDown. drag_norm.
  destruct (objects w !! object e) as [o|]; unfold startDrag, readVector3;
    unfold setOrbitEnabled, setDragState; drag_norm;
    eexists; (split; [reflexivity|]);
    rewrite ?lookup_insert_eq; drag_norm; reflexivity.
Qed.

Lemma mountCursorConstraint_fields cam d w :
  mountCursorConstraint cam d w
  = mkDrag (<[Pos.succ (Pos.succ (nextLoc w)) := (0, 0, 0)]>
              (<[Pos.succ (nextLoc w) := (0, 0, 0)]>
                 (<[nextLoc w := (0, 0, 0)]> (heap w))))
      (Pos.succ (Pos.succ (Pos.succ (nextLoc w)))) (objects w)
      (dragState w) (orbitEnabled w)
      (Some {| props := d;
               cursorPosition := (0, 0, 0);
               cursorApiPosition := (0, 0, 0);
               constraintTarget := ref d;
               pivotA := (0, 0, 0);
               pivotB := readVector3 (pivot d) w;
               initialDistance :=
                 match objects w !! ref d with
                 | Some target => distanceTo (cameraPosition cam) (objPosition target)
                 | None => 0
                 end;
               startPos := nextLoc w;
               endPos := Pos.succ (nextLoc w);
               worldPivot := Pos.succ (Pos.succ (nextLoc w));
               linePositions := None |}).
Proof.
  unfold mountCursorConstraint.
  destruct (readVector3 (pivot d) w) as [[px py] pz]. reflexivity.
Qed.

Lemma rerenderCursorConstraint_fields cam d c w :
  exists dist,
    rerenderCursorConstraint cam d c w
    = mkDrag (<[Pos.succ (Pos.succ (nextLoc w)) := (0, 0, 0)]>
                (<[Pos.succ (nextLoc w) := (0, 0, 0)]>
                   (<[nextLoc w := (0, 0, 0)]> (heap w))))
        (Pos.succ (Pos.succ (Pos.succ (nextLoc w)))) (objects w)
        (dragState w) (orbitEnabled w)
        (Some {| props := d;
                 cursorPosition := cursorPosition c;
                 cursorApiPosition := cursorApiPosition c;
                 constraintTarget := constraintTarget c;
                 pivotA := pivotA c;
                 pivotB := pivotB c;
                 initialDistance := dist;
                 startPos := nextLoc w;
                 endPos := Pos.succ (nextLoc w);
                 worldPivot := Pos.succ (Pos.succ (nextLoc w));
                 linePositions := linePositions c |}).
Proof. eexists. reflexivity. Qed.

Lemma pointerUp_fields cam w :
  dragStep (PointerUp cam) w
  = mkDrag (heap w) (nextLoc w) (objects w) None true None.
Proof.
  cbn [dragStep]. unfold endDrag, renderDrag. drag_norm.
  destruct (cursorConstraint w) eqn:Hc;
    unfold setCursorConstraint, setOrbitEnabled, setDragState; drag_norm;
    rewrite ?Hc; reflexivity.
Qed.

(** What a pointer-down leaves, whether the components are mounted by it
    or were mounted before: a session on the new pivot, and the constraint
    of the mount. *)
Lemma pointerDown_session cam e w0 :
  let d := mkSession (default (object e) (childRef e)) (nextLoc w0)
             (match childRef e with Some _ => true | None => false end) in
  let v := match objects w0 !! object e with
           | Some o => worldToLocal o (point e)
           | None => point e
           end in
  let w := dragStep (PointerDown cam e) w0 in
  inSession d v w
  /\ orbitEnabled w = false
  /\ (cursorConstraint w0 = None ->
      exists c, cursorConstraint w = Some c
        /\ constraintTarget c = ref d /\ pivotA c = (0, 0, 0) /\ pivotB c = v)
  /\ (forall c0, cursorConstraint w0 = Some c0 ->
      exists c, cursorConstraint w = Some c
        /\ constraintTarget c = constraintTarget c0
        /\ pivotA c = pivotA c0 /\ pivotB c = pivotB c0).
Proof.
  intros d v w. subst w. cbn [dragStep].
  destruct (onPointerDown_fields e w0) as (h & -> & Hl). fold d v in Hl |- *.
  unfold renderDrag. drag_norm.
  destruct (cursorConstraint w0) as [c0|].
  - destruct (rerenderCursorConstraint_fields cam d c0
                (mkDrag h (Pos.succ (nextLoc w0)) (objects w0) (Some d) false (Some c0)))
      as (dist & ->).
    drag_norm. split; [|split; [reflexivity|split; [discriminate|]]].
    + unfold inSession. drag_norm. split; [reflexivity|]. split.
      { subst d. drag_norm. rewrite !lookup_insert_ne by lia. exact Hl. }
      eexists. split; [reflexivity|]. subst d. drag_norm. repeat split; lia.
    + intros c [= <-]. eexists. split; [reflexivity|]. drag_norm. now repeat split.
  - rewrite mountCursorConstraint_fields. drag_norm.
    split; [|split; [reflexivity|split; [|discriminate]]].
    + unfold inSession. drag_norm. split; [reflexivity|]. split.
      { subst d. drag_norm. rewrite !lookup_insert_ne by lia. exact Hl. }
      eexists. split; [reflexivity|]. subst d. drag_norm. repeat split; lia.
    + intros _. eexists. split; [reflexivity|]. drag_norm.
      unfold readVector3. subst d. drag_norm. rewrite Hl. now repeat split.
Qed.

(** A frame keeps the session and the constraint, and draws the line from
    where the mesh of the sphere was to the pivot, carried to world space
    with the pose that the target had. *)
Lemma dragFrame_inSession d v i w :
  inSession d v w ->
  inSession d v (dragFrame i w)
  /\ (forall obj, objects w !! ref d = Some obj ->
        exists c0 c, cursorConstraint w = Some c0
          /\ cursorConstraint (dragFrame i w) = Some c
          /\ linePositions c
             = Some (cursorPosition c0,
                     Vector3.add (applyQuaternion v (quaternion obj)) (objPosition obj))).
Proof.
  intros (Hd & Hl & c & Hc & Hp & Hsp & Hwp & Hsw).
  unfold dragFrame. rewrite Hc. unfold DragLine_useFrame. rewrite Hp.
  destruct (objects w !! ref d) as [obj|] eqn:Hobj.
  - unfold readVector3, CursorConstraint_useFrame. drag_norm.
    rewrite !lookup_insert_eq. drag_norm.
    rewrite (lookup_insert_ne _ (startPos c) (pivot d)) by exact Hsp.
    rewrite Hl. drag_norm. split.
    + unfold inSession. drag_norm. split; [exact Hd|]. split.
      { rewrite !lookup_insert_ne by auto. exact Hl. }
      eexists. split; [reflexivity|]. drag_norm. repeat split; assumption.
    + intros obj' [= <-]. do 2 eexists. split; [reflexivity|].
      split; [reflexivity|]. drag_norm.
      rewrite !lookup_insert_ne by auto. rewrite lookup_insert_eq. reflexivity.
  - split; [|intros obj' [=]].
    unfold inSession, CursorConstraint_useFrame. drag_norm.
    split; [exact Hd|]. split; [exact Hl|].
    eexists. split; [reflexivity|]. drag_norm. repeat split; assumption.
Qed.

Lemma dragFrames_inSession d v frames w :
  inSession d v w -> inSession d v (dragFrames frames w).
Proof.
  unfold dragFrames. revert w.
  induction frames as [|i frames IH]; intros w Hw; [exact Hw|].
  cbn [fold_left]. apply IH. now apply dragFrame_inSession.
Qed.

(** A frame leaves the drag state and the orbit flag alone, keeps the
    components mounted or not, and does not touch the constraint. *)
Lemma dragFrame_fields i w :
  dragState (dragFrame i w) = dragState w
  /\ orbitEnabled (dragFrame i w) = orbitEnabled w
  /\ (cursorConstraint (dragFrame i w) = None <-> cursorConstraint w = None)
  /\ objects (dragFrame i w) = moved i
  /\ (forall c0, cursorConstraint w = Some c0 ->
        exists c, cursorConstraint (dragFrame i w) = Some c
          /\ constraintTarget c = constraintTarget c0
          /\ pivotA c = pivotA c0 /\ pivotB c = pivotB c0).
Proof.
  unfold dragFrame.
  destruct (cursorConstraint w) as [c|] eqn:Hc; drag_norm.
  - unfold DragLine_useFrame.
    destruct (objects w !! ref (props c)); unfold CursorConstraint_useFrame; drag_norm;
      (split; [reflexivity|]); (split; [reflexivity|]);
      (split; [split; discriminate|]); (split; [reflexivity|]);
      intros c0 [= <-]; eexists; (split; [reflexivity|]); drag_norm; now repeat split.
  - rewrite Hc. repeat split; auto; discriminate.
Qed.

Lemma dragFrames_constraint frames w c0 :
  cursorConstraint w = Some c0 ->
  exists c, cursorConstraint (dragFrames frames w) = Some c
    /\ constraintTarget c = constraintTarget c0
    /\ pivotA c = pivotA c0 /\ pivotB c = pivotB c0.
Proof.
  unfold dragFrames. revert w c0.
  induction frames as [|i frames IH]; intros w c0 Hc; [now exists c0|].
  cbn [fold_left].
  destruct (dragFrame_fields i w) as (_ & _ & _ & _ & Hk).
  destruct (Hk c0 Hc) as (c1 & Hc1 & Ht & HA & HB).
  destruct (IH _ c1 Hc1) as (c & Hcc & Ht' & HA' & HB').
  exists c. split; [exact Hcc|]. repeat split; congruence.
Qed.

Lemma dragStep_consistent e w : providerConsistent w -> providerConsistent (dragStep e w).
Proof.
  intros [Ho Hc]. destruct e as [cam e | cam | i].
  - destruct (pointerDown_session cam e w) as ((Hd & _ & c & Hcc & _) & Hor & _).
    split; rewrite ?Hd, ?Hor, ?Hcc; split; discriminate.
  - rewrite pointerUp_fields. split; drag_norm; split; reflexivity.
  - cbn [dragStep]. destruct (dragFrame_fields i w) as (Hd & Hor & Hcc & _).
    unfold providerConsistent. rewrite Hd, Hor, Hcc. now split.
Qed.

Lemma dragReachable_consistent w : dragReachable w -> providerConsistent w.
Proof.
  induction 1 as [objs | e w _ IH]; [|now apply dragStep_consistent].
  split; cbn; split; reflexivity.
Qed.

(** X13.  Every drag session keeps its pivot.  A pointer-down on a mesh
    [o] stores as pivot a new vector object holding the hit point carried
    into the local frame of [o].  Through any number of frames after it,
    however the physics engine moves the meshes, the drag state keeps that
    object, the object keeps that value, and the feedback line of each frame
    runs from where the mesh of the sphere is to that pivot carried to world
    space with the pose the body has in the frame.  When nothing was dragged
    at the pointer-down, the point-to-point constraint is on the grabbed body
    with that pivot.  A pointer-up ends the session. *)
Theorem drag_pivot_fixed (cam : Camera) (e : PointerEvent) (o : Object3D)
    (w0 : DragWorld) (frames : list DragFrame) :
  dragReachable w0 ->
  objects w0 !! object e = Some o ->
  let l := nextLoc w0 in
  let r := default (object e) (childRef e) in
  let v := worldToLocal o (point e) in
  let w := dragFrames frames (dragStep (PointerDown cam e) w0) in
  (exists d, dragState w = Some d /\ ref d = r /\ pivot d = l)
  /\ heap w !! l = Some v
  /\ (forall i obj, objects w !! r = Some obj ->
        exists c0 c, cursorConstraint w = Some c0
          /\ cursorConstraint (dragFrame i w) = Some c
          /\ linePositions c
             = Some (cursorPosition c0,
                     Vector3.add (applyQuaternion v (quaternion obj)) (objPosition obj)))
  /\ (dragState w0 = None ->
        exists c, cursorConstraint w = Some c
          /\ constraintTarget c = r /\ pivotA c = (0, 0, 0) /\ pivotB c = v)
  /\ (forall cam', dragState (dragStep (PointerUp cam') w) = None
                   /\ cursorConstraint (dragStep (PointerUp cam') w) = None).
Proof.
  intros Hreach Ho l r v w.
  destruct (dragReachable_consistent w0 Hreach) as [_ Hmounted].
  destruct (pointerDown_session cam e w0) as (Hgrab & _ & Hnew & _).
  rewrite Ho in Hgrab, Hnew. fold l r v in Hgrab, Hnew.
  set (d := mkSession r l (match childRef e with Some _ => true | None => false end))
    in Hgrab.
  pose proof (dragFrames_inSession d v frames _ Hgrab) as Hw. fold w in Hw.
  pose proof Hw as (Hds & Hl & _).
  split; [exists d; now repeat split|]. split; [exact Hl|]. split.
  { intros i obj Hobj. now apply (dragFrame_inSession d v i w Hw). }
  split.
  { intros Hidle. apply Hmounted in Hidle.
    destruct (Hnew Hidle) as (c1 & Hc1 & Ht & HA & HB).
    destruct (dragFrames_constraint frames _ c1 Hc1) as (c & Hc & Ht' & HA' & HB').
    exists c. split; [exact Hc|].
    split; [rewrite Ht'; exact Ht|]. split; [rewrite HA'; exact HA | rewrite HB'; exact HB]. }
  intros cam'. rewrite pointerUp_fields. split; reflexivity.
Qed.

End DragProperties.

(** A slab that is grabbed and then moved by the physics engine: the pivot
    stays the hit point relative to where the slab was grabbed. *)
Lemma drag_pivot_fixed_witness :
  heap (dragFrames (H := unrotated) twoFrames
          (dragStep (PointerDown (H := unrotated) (35, 25, 35) hitSlab) oneSlab))
    !! 1%positive
  = Some (1 - 0, 4.2 - 4, 0.5 - 0).
Proof.
  apply (drag_pivot_fixed (H := unrotated) (35, 25, 35) hitSlab
           (mkObject (0, 4, 0) (0, 0, 0, 1)) oneSlab twoFrames);
    [apply (dragReachable_initial (H := unrotated)) | reflexivity].
Defined.

(** C8 fails on the code when a pointer-down arrives while a body is held.
    After a pointer-down on the slab and, with no pointer-up between, a
    pointer-down on the cube, the state is one the provider can reach; the
    drag state is on the cube, with the hit point on the cube as pivot, and
    these are the props of [CursorConstraint], so that the feedback line of
    the next frame ends at the hit point on the cube; but the point-to-point
    constraint is the one of the mount, on the slab, with the hit point on
    the slab as pivot.  The constraint and the line do not use the same
    pivot. *)
Theorem regrab_keeps_first_constraint :
  let cam : Camera (Three := unrotated) := (35, 25, 35) in
  let slab := mkObject (0, 4, 0) (0, 0, 0, 1) in
  let cube := mkObject (6, 0.5, 0) (0, 0, 0, 1) in
  let frame := mkDragFrame (H := unrotated) cam (0.1, 0.2) (objects slabAndCube) (0, 0, 0) in
  let w := dragStep (H := unrotated) (PointerDown (H := unrotated) cam hitCube)
             (dragStep (H := unrotated) (PointerDown (H := unrotated) cam hitSlab)
                slabAndCube) in
  dragReachable (H := unrotated) w
  /\ exists d c c',
       dragState w = Some d /\ ref d = 2%positive
       /\ readVector3 (pivot d) w = worldToLocal (Three := unrotated) cube (point hitCube)
       /\ cursorConstraint w = Some c /\ props c = d
       /\ constraintTarget c = 1%positive
       /\ pivotB c = worldToLocal (Three := unrotated) slab (point hitSlab)
       /\ pivotB c <> readVector3 (pivot d) w
       /\ cursorConstraint (dragFrame (H := unrotated) frame w) = Some c'
       /\ snd <$> linePositions c'
          = Some (Vector3.add (worldToLocal (Three := unrotated) cube (point hitCube))
                    (objPosition cube)).
Proof.
  cbv zeta. split.
  - do 2 apply (dragReachable_step (H := unrotated)).
    apply (dragReachable_initial (H := unrotated)).
  - do 3 eexists.
    split; [vm_compute; reflexivity|]. split; [reflexivity|].
    split; [vm_compute; reflexivity|].
    split; [vm_compute; reflexivity|]. split; [reflexivity|].
    split; [reflexivity|]. split; [vm_compute; reflexivity|].
    split; [vm_compute; discriminate|].
    split; [vm_compute; reflexivity|]. vm_compute. reflexivity.
Qed.

#[local] Open Scope Q_scope.

(** * More of the excitation controller *)

Lemma quakeScheduled_initial audio : quakeScheduled (initialApp audio).
Proof.
  split; [|split]; cbn; discriminate.
Qed.

Lemma quakeScheduled_no_timers s s' :
  timers s' = ∅ -> isQuaking s' = false ->
  timeoutRef s' = timeoutRef s -> pWaveTimeoutRef s' = pWaveTimeoutRef s ->
  quakeScheduled s -> quakeScheduled s'.
Proof.
  intros Ht Hq Hr Hp (_ & Hne & _). unfold quakeScheduled.
  rewrite Ht, Hq, Hr, Hp. split; [|split].
  - intros id t Hid. now rewrite lookup_empty in Hid.
  - exact Hne.
  - discriminate.
Qed.

(** A step that touches neither the timers, the refs, the power, the type
    nor the active flag keeps the schedule. *)
Lemma quakeScheduled_same s s' :
  timers s' = timers s -> isQuaking s' = isQuaking s ->
  timeoutRef s' = timeoutRef s -> pWaveTimeoutRef s' = pWaveTimeoutRef s ->
  quakePower s' = quakePower s -> type (config s') = type (config s) ->
  quakeScheduled s -> quakeScheduled s'.
Proof.
  intros Ht Hq Hr Hp Hw Hc Hs. unfold quakeScheduled.
  rewrite Ht, Hq, Hr, Hp, Hw, Hc. exact Hs.
Qed.

Lemma handleRebuild_scheduled s :
  timersTracked s -> quakeScheduled s -> quakeScheduled (handleRebuild s).
Proof.
  intros Ht. apply quakeScheduled_no_timers;
    rewrite handleRebuild_eq; try reflexivity.
  now apply timersTracked_cleared.
Qed.

Lemma handleEarthquake_scheduled duration power r s :
  timersTracked s -> quakeScheduled s ->
  quakeScheduled (handleEarthquake duration power r s).
Proof.
  intros Ht _. pose proof (timersTracked_cleared s Ht) as Hclr.
  destruct Ht as (_ & Hlt & Hlp).
  destruct (type (config s)) eqn:Hty, (Qle_bool 1.4 power) eqn:Hp;
    try (rewrite handleEarthquake_single by (rewrite Hty; auto || (left; discriminate));
         rewrite Hclr; repeat split; cbn;
         [ intros id t Hid; apply lookup_insert_Some in Hid as [[<- <-] | [_ Hid]];
           [left; now split | now rewrite lookup_empty in Hid]
         | intros id [= <-] Heq; specialize (Hlp _ Heq); lia
         | intros _; do 2 eexists; split; [reflexivity | apply lookup_insert_eq] ]).
  rewrite handleEarthquake_split by assumption. rewrite Hclr.
  repeat split; cbn.
  - intros id t Hid.
    apply lookup_insert_Some in Hid as [[<- <-] | [_ Hid]]; [left; now split|].
    apply lookup_insert_Some in Hid as [[<- <-] | [_ Hid]];
      [|now rewrite lookup_empty in Hid].
    right. split; [reflexivity|]. split; [reflexivity|]. split; [exact Hty|].
    do 2 eexists. split; [reflexivity|]. now apply Qle_bool_iff.
  - intros id [= <-] [= Heq]. lia.
  - intros _. do 2 eexists. split; [reflexivity | apply lookup_insert_eq].
Qed.

Lemma fireTimer_scheduled id s : quakeScheduled s -> quakeScheduled (fireTimer id s).
Proof.
  intros (Hk & Hne & Hq). rewrite fireTimer_eq.
  destruct (timers s !! id) as [[d [p sd|]]|] eqn:Hid; [| |now repeat split].
  - (* the phase timer *)
    destruct (Hk id _ Hid) as [[_ Hcb] | (Hp & _)]; [discriminate Hcb|].
    repeat split; cbn.
    + intros j t Hj. apply lookup_delete_Some in Hj as [Hji Hj].
      destruct (Hk j t Hj) as [Hl | (Hpj & _)]; [now left|]. congruence.
    + exact Hne.
    + intros Hact. destruct (Hq Hact) as (j & dj & Hr & Hj).
      exists j, dj. split; [exact Hr|]. rewrite lookup_delete_ne; [exact Hj|].
      intros ->. specialize (Hne _ Hr). contradiction.
  - (* the end-of-quake timer *)
    repeat split; cbn; [|exact Hne|discriminate].
    intros j t Hj. apply lookup_delete_Some in Hj as [Hji Hj].
    exact (Hk j t Hj).
Qed.

Lemma quakeScheduled_step e s :
  timersTracked s -> quakeScheduled s -> quakeScheduled (appStep e s).
Proof.
  intros Ht Hs. destruct e as [n t | | | b r | v | id]; cbn [appStep].
  - assert (Hr : quakeScheduled (handleConfigChange n t s)).
    { unfold handleConfigChange.
      apply (quakeScheduled_no_timers s); rewrite ?handleRebuild_eq;
        try reflexivity; [|exact Hs].
      cbn. now apply timersTracked_cleared. }
    destruct (typeEffect_eq (type (config s)) (handleConfigChange n t s))
      as [-> | [d ->]]; [exact Hr|].
    revert Hr. now apply quakeScheduled_same.
  - now apply handleRebuild_scheduled.
  - revert Hs. now apply quakeScheduled_same.
  - unfold clickQuake. destruct (rendered b s && negb (disabled b s)); [|exact Hs].
    destruct (onClickArgs b s). now apply handleEarthquake_scheduled.
  - revert Hs. now apply quakeScheduled_same.
  - now apply fireTimer_scheduled.
Qed.

Lemma appReachable_scheduled s : appReachable s -> quakeScheduled s.
Proof.
  induction 1 as [audio | e s Hs IH]; [apply quakeScheduled_initial|].
  apply quakeScheduled_step; [now apply appReachable_tracked | exact IH].
Qed.

(** X1.  An active quake is always scheduled to end: in every reachable
    state in which a quake is active, [timeoutRef] holds the id of a pending
    timer whose callback ends the quake, and the firing of that timer leaves
    the quake inactive. *)
Theorem active_quake_has_end_timer (s : AppState) :
  appReachable s -> isQuaking s = true ->
  exists id d,
    timeoutRef s = Some id
    /\ timers s !! id = Some (mkTimer d endQuake)
    /\ isQuaking (fireTimer id s) = false
    /\ timers (fireTimer id s) !! id = None.
Proof.
  intros Hr Hq.
  destruct (appReachable_scheduled s Hr) as (_ & _ & Hend).
  destruct (Hend Hq) as (id & d & Href & Hid).
  exists id, d. rewrite fireTimer_eq, Hid. cbn.
  repeat split; try assumption. apply lookup_delete_eq.
Qed.

Lemma active_quake_has_end_timer_witness :
  exists id d,
    timeoutRef simpleQuaking = Some id
    /\ timers simpleQuaking !! id = Some (mkTimer d endQuake)
    /\ isQuaking (fireTimer id simpleQuaking) = false
    /\ timers (fireTimer id simpleQuaking) !! id = None.
Proof.
  apply (active_quake_has_end_timer simpleQuaking); [repeat constructor | reflexivity].
Defined.

(** X2.  A P-wave occurs on the bank only: in every reachable state that is
    in its P-wave the building is the bank, the power is 0.5, and the pending
    phase timer carries a power of at least 1.4; when it fires, the quake is
    in its S-wave at that power. *)
Theorem p_wave_only_on_bank (s : AppState) :
  appReachable s -> phase s = PWave ->
  type (config s) = bank /\ quakePower s = 0.5
  /\ exists id d power sWaveDuration,
       pWaveTimeoutRef s = Some id
       /\ timers s !! id = Some (mkTimer d (startSWave power sWaveDuration))
       /\ 1.4 <= power
       /\ quakePower (fireTimer id s) = power
       /\ phase (fireTimer id s) = SWave.
Proof.
  intros Hr Hph.
  destruct (appReachable_scheduled s Hr) as (Hk & Hne & _).
  unfold phase in Hph.
  destruct (isQuaking s) eqn:Hq; [|discriminate].
  destruct (pWaveTimeoutRef s) as [id|] eqn:Hp; [|discriminate].
  destruct (timers s !! id) as [[d cb]|] eqn:Hid; [|discriminate].
  destruct (Hk id _ Hid) as [[Ht _] | (_ & Hw & Hb & p & sd & Hcb & Hge)].
  { now elim (Hne _ Ht). }
  cbn in Hcb. subst cb.
  split; [exact Hb|]. split; [exact Hw|].
  exists id, d, p, sd. rewrite fireTimer_eq, Hid. unfold phase. cbn.
  rewrite Hq, Hp, lookup_delete_eq. repeat split; assumption.
Qed.

Lemma p_wave_only_on_bank_witness :
  phase bankPWave = PWave /\ type (config bankPWave) = bank
  /\ quakePower bankPWave = 0.5.
Proof.
  split; [reflexivity|].
  destruct (p_wave_only_on_bank bankPWave) as (Hb & Hw & _).
  - repeat constructor.
  - reflexivity.
  - split; assumption.
Defined.

(** The two results of [handleEarthquake] in a reachable state, where the
    timers it clears are all the timers there are. *)
Lemma single_phase_fields duration power r s :
  type (config s) <> bank \/ power < 1.4 ->
  appReachable s ->
  let s1 := handleEarthquake duration power r s in
  isQuaking s1 = true /\ quakePower s1 = power /\ phase s1 = SWave
  /\ timeoutRef s1 = Some (nextTimer s)
  /\ timers s1 = {[ nextTimer s := mkTimer duration endQuake ]}.
Proof.
  intros Hc Hr s1.
  assert (Hc' : type (config s) <> bank \/ Qle_bool 1.4 power = false).
  { destruct Hc as [Hc | Hc]; [now left | right].
    destruct (Qle_bool 1.4 power) eqn:Hp; [|reflexivity].
    apply Qle_bool_iff in Hp. lra. }
  pose proof (appReachable_tracked s Hr) as Ht.
  assert (Hs1 := handleEarthquake_single duration power r s Hc').
  rewrite (timersTracked_cleared s Ht) in Hs1. fold s1 in Hs1.
  destruct Ht as (_ & _ & Hlp).
  assert (Hph : phase s1 = SWave).
  { unfold phase. rewrite Hs1. cbn.
    destruct (pWaveTimeoutRef s) as [id|] eqn:Hp; [|reflexivity].
    rewrite lookup_insert_ne; [now rewrite lookup_empty|].
    specialize (Hlp _ eq_refl). lia. }
  split; [rewrite Hs1; reflexivity|].
  split; [rewrite Hs1; reflexivity|].
  split; [exact Hph|].
  split; rewrite Hs1; reflexivity.
Qed.

Lemma two_phase_fields duration power r s :
  type (config s) = bank -> 1.4 <= power ->
  let s1 := handleEarthquake duration power r s in
  isQuaking s1 = true /\ quakePower s1 = 0.5 /\ phase s1 = PWave
  /\ timeoutRef s1 = Some (Pos.succ (nextTimer s))
  /\ timers s1 !! Pos.succ (nextTimer s) = Some (mkTimer duration endQuake).
Proof.
  intros Hb Hp s1. apply Qle_bool_iff in Hp.
  assert (Hs1 := handleEarthquake_split duration power r s Hb Hp).
  cbv zeta in Hs1. fold s1 in Hs1.
  split; [rewrite Hs1; reflexivity|].
  split; [rewrite Hs1; reflexivity|].
  split.
  { unfold phase. rewrite Hs1. cbn.
    rewrite lookup_insert_ne by lia. now rewrite lookup_insert_eq. }
  split; [rewrite Hs1; reflexivity|].
  rewrite Hs1. cbn. apply lookup_insert_eq.
Qed.

(** X3.  Off the two-phase path, that is for any building but the bank or
    any power below 1.4, a trigger in a reachable state runs one phase: the
    power is the requested one at once, exactly one timer is pending, armed
    with the requested duration, and when it fires the quake is inactive and
    no timer is left. *)
Theorem single_phase_quake (duration power r : Q) (s : AppState) :
  type (config s) <> bank \/ power < 1.4 ->
  appReachable s ->
  let s1 := handleEarthquake duration power r s in
  let idE := nextTimer s in
  let s2 := fireTimer idE s1 in
  isQuaking s1 = true /\ quakePower s1 = power /\ phase s1 = SWave
  /\ timeoutRef s1 = Some idE
  /\ timers s1 = {[ idE := mkTimer duration endQuake ]}
  /\ isQuaking s2 = false /\ quakePower s2 = power /\ timers s2 = ∅.
Proof.
  intros Hc Hr s1 idE s2.
  destruct (single_phase_fields duration power r s Hc Hr)
    as (Hq & Hw & Hph & Href & Htm).
  fold s1 idE in Hq, Hw, Hph, Href, Htm.
  assert (Hs2 : s2 = setIsQuaking false (setTimers (delete idE (timers s1)) s1)).
  { subst s2. rewrite fireTimer_eq, Htm, lookup_singleton_eq. now rewrite <- Htm. }
  repeat (split; [assumption|]).
  rewrite Hs2. cbn. rewrite Htm, delete_singleton_eq. repeat split. exact Hw.
Qed.

Lemma single_phase_quake_witness :
  timers (handleEarthquake 10000 1 0 (initialApp true))
  = {[ 1%positive := mkTimer 10000 endQuake ]}
  /\ isQuaking (fireTimer 1 (handleEarthquake 10000 1 0 (initialApp true))) = false.
Proof.
  destruct (single_phase_quake 10000 1 0 (initialApp true))
    as (_ & _ & _ & _ & Ht & Hq & _).
  - left. discriminate.
  - constructor.
  - split; assumption.
Defined.

(** X4.  Of the quake buttons only "Trigger M7.9" starts a P-wave: a click
    on a rendered button in a reachable state with no quake active starts a
    quake whose end timer carries the button's duration; for "Trigger M7.9"
    the quake is in its P-wave at power 0.5, for every other button it is at
    the button's power from the start. *)
Theorem only_M79_starts_p_wave (b : QuakeButton) (r : Q) (s : AppState) :
  appReachable s -> isQuaking s = false -> rendered b s = true ->
  let s1 := clickQuake b r s in
  isQuaking s1 = true
  /\ phase s1 = match b with triggerM79 => PWave | _ => SWave end
  /\ quakePower s1 = match b with triggerM79 => 0.5 | _ => snd (onClickArgs b s) end
  /\ exists id, timeoutRef s1 = Some id
       /\ timers s1 !! id = Some (mkTimer (fst (onClickArgs b s)) endQuake).
Proof.
  intros Hr Hq Hrd s1. subst s1. unfold clickQuake, disabled.
  rewrite Hrd, Hq. cbn [andb negb].
  destruct (onClickArgs b s) as [duration power] eqn:Hargs. cbn [fst snd].
  assert (Hcases :
    (b = triggerM79 /\ type (config s) = bank /\ Qle_bool 1.4 power = true)
    \/ (b <> triggerM79 /\ power < 1.4)).
  { destruct b; cbn in Hargs; injection Hargs as <- <-;
      try (right; split; [discriminate | reflexivity]).
    left. split; [reflexivity|]. split; [|reflexivity].
    unfold rendered in Hrd. now destruct (type (config s)). }
  destruct Hcases as [(-> & Hb & Hp) | (Hnb & Hp)].
  - apply Qle_bool_iff in Hp.
    destruct (two_phase_fields duration power r s Hb Hp)
      as (H1 & H2 & H3 & H4 & H5).
    repeat (split; [assumption|]). eexists. split; [exact H4 | exact H5].
  - destruct (single_phase_fields duration power r s (or_intror Hp) Hr)
      as (H1 & H2 & H3 & H4 & H5).
    split; [exact H1|]. split; [destruct b; try exact H3; now elim Hnb|].
    split; [destruct b; try exact H2; now elim Hnb|].
    eexists. split; [exact H4|]. rewrite H5. apply lookup_singleton_eq.
Qed.

Lemma only_M79_starts_p_wave_witness :
  phase (clickQuake triggerM79 0.5 bankApp) = PWave
  /\ phase (clickQuake quake10s 0.5 bankApp) = SWave.
Proof.
  split.
  - apply (only_M79_starts_p_wave triggerM79 0.5 bankApp);
      [repeat constructor | reflexivity | reflexivity].
  - apply (only_M79_starts_p_wave quake10s 0.5 bankApp);
      [repeat constructor | reflexivity | reflexivity].
Defined.

(** The pause flag is written by the pause button and by a rebuild only,
    and read by no handler. *)
Lemma handleEarthquake_paused duration power r b s :
  handleEarthquake duration power r (setIsPaused b s)
  = setIsPaused b (handleEarthquake duration power r s).
Proof.
  destruct (type (config s)) eqn:Ht, (Qle_bool 1.4 power) eqn:Hp;
    try (rewrite !handleEarthquake_single
           by (cbn [setIsPaused config]; rewrite Ht; auto || (left; discriminate));
         reflexivity).
  rewrite !handleEarthquake_split by assumption. reflexivity.
Qed.

Lemma appStep_paused e b s :
  match e with
  | ClickQuake _ _ | ChangeDuration _ | TimerFires _ => True
  | _ => False
  end ->
  appStep e (setIsPaused b s) = setIsPaused b (appStep e s).
Proof.
  destruct e as [n t | | | q r | v | id]; try contradiction; intros _; cbn [appStep].
  - unfold clickQuake, rendered, disabled, onClickArgs.
    cbn [setIsPaused config isQuaking customDuration].
    destruct (_ && _); [|reflexivity].
    destruct q; apply handleEarthquake_paused.
  - reflexivity.
  - rewrite !fireTimer_eq. cbn [setIsPaused timers].
    destruct (timers s !! id) as [[d [p sd|]]|]; reflexivity.
Qed.

Lemma appStep_keeps e s :
  match e with
  | ClickQuake _ _ | ChangeDuration _ | TimerFires _ =>
      resetKey (appStep e s) = resetKey s /\ isPaused (appStep e s) = isPaused s
  | _ => True
  end.
Proof.
  destruct e as [n t | | | q r | v | id]; try exact I; cbn [appStep];
    try (split; reflexivity).
  - unfold clickQuake. destruct (_ && _); [|split; reflexivity].
    destruct (onClickArgs q s) as [duration power].
    destruct (type (config s)) eqn:Ht, (Qle_bool 1.4 power) eqn:Hp;
      try (rewrite handleEarthquake_single
             by (rewrite Ht; auto || (left; discriminate)); split; reflexivity).
    rewrite handleEarthquake_split by assumption. split; reflexivity.
  - rewrite fireTimer_eq.
    destruct (timers s !! id) as [[d [p sd|]]|]; split; reflexivity.
Qed.

(** In a world whose scene is mounted for the current key, an event that
    keeps the key steps the application alone. *)
Lemma worldStep_same_key `{JsMath} e a f :
  resetKey (appStep e a) = resetKey a ->
  worldStep (UI e) (mkWorld a f (resetKey a)) = mkWorld (appStep e a) f (resetKey a).
Proof.
  intros He. cbn [worldStep]. unfold render. cbn [app mountedKey floor].
  rewrite He, Nat.eqb_refl. reflexivity.
Qed.

(** X5.  Pausing is independent of the excitation: in every reachable world
    a click on Pause commutes with a click on a quake button, a move of the
    duration slider, the firing of a timer and a frame, so a quake, its
    timers and the floor go on the same whether the physics is paused or not;
    a second click on Pause restores the flag, and a rebuild always
    resumes. *)
Theorem pause_is_independent `{JsMath} (w : World) :
  reachable w ->
  (forall e,
     match e with
     | UI (ClickQuake _ _) | UI (ChangeDuration _) | UI (TimerFires _) | Frame _ =>
         worldStep e (worldStep (UI ClickPause) w)
         = worldStep (UI ClickPause) (worldStep e w)
     | _ => True
     end)
  /\ isPaused (app (worldStep (UI ClickPause) (worldStep (UI ClickPause) w)))
     = isPaused (app w)
  /\ isPaused (app (worldStep (UI ClickRebuild) w)) = false.
Proof.
  intros Hw. destruct (reachable_app w Hw) as [_ Hk].
  destruct w as [a f k]. cbn [app mountedKey] in Hk. subst k.
  assert (Hp : forall a' f', resetKey a' = resetKey a ->
            worldStep (UI ClickPause) (mkWorld a' f' (resetKey a))
            = mkWorld (setIsPaused (negb (isPaused a')) a') f' (resetKey a)).
  { intros a' f' Ha'. rewrite <- Ha'. now apply worldStep_same_key. }
  split; [|split].
  - intros [e | i].
    + pose proof (appStep_keeps e a) as Hkeep.
      pose proof (appStep_keeps e (setIsPaused (negb (isPaused a)) a)) as Hkeep'.
      destruct e as [n t | | | q r | v | id]; try exact I.
      all: destruct Hkeep as [Hkey Hpause], Hkeep' as [Hkey' _].
      all: rewrite (Hp a f eq_refl).
      all: rewrite (worldStep_same_key _ a f Hkey).
      all: rewrite (Hp _ f Hkey), Hpause.
      all: change (resetKey a) with (resetKey (setIsPaused (negb (isPaused a)) a)) at 1.
      all: rewrite worldStep_same_key by exact Hkey'.
      all: rewrite appStep_paused by exact I.
      all: reflexivity.
    + change (worldStep (Frame i) (mkWorld a f (resetKey a)))
        with (mkWorld a
                (Floor_useFrame (isQuaking a) (quakePower a) (frameDelta i)
                   (random1 i) (random2 i) (random3 i) f) (resetKey a)).
      rewrite !(Hp a _ eq_refl). reflexivity.
  - rewrite (Hp a f eq_refl), (Hp (setIsPaused _ a) f eq_refl). cbn.
    apply negb_involutive.
  - cbn [worldStep appStep]. unfold render. cbn [app].
    destruct (Nat.eqb _ _); cbn [app]; rewrite handleRebuild_eq; reflexivity.
Qed.

Lemma pause_is_independent_witness :
  worldStep (H := smallAngles) (UI (TimerFires 1))
    (worldStep (H := smallAngles) (UI ClickPause) pWaveWorld)
  = worldStep (H := smallAngles) (UI ClickPause)
      (worldStep (H := smallAngles) (UI (TimerFires 1)) pWaveWorld).
Proof.
  destruct (pause_is_independent (H := smallAngles) pWaveWorld) as [Hc _].
  - repeat constructor.
  - exact (Hc (UI (TimerFires 1))).
Defined.

(** X6.  Selecting a building rebuilds: in every reachable world a click on a
    building button installs the new configuration, ends any quake, resumes
    the physics, closes the sound, leaves no timer pending, mounts the scene
    anew with the floor at rest, and resets the custom duration to 30 seconds
    for the bank and 15 otherwise when the building type has changed, keeping
    it when the type is the same. *)
Theorem config_change_rebuilds `{JsMath} (n : nat) (t : BuildingType) (w : World) :
  reachable w ->
  let w' := worldStep (UI (ClickConfig n t)) w in
  config (app w') = mkConfig n t
  /\ isQuaking (app w') = false /\ isPaused (app w') = false
  /\ audioContextRef (app w') = None
  /\ timers (app w') = ∅
  /\ resetKey (app w') = S (resetKey (app w))
  /\ floor w' = mountFloor
  /\ customDuration (app w')
     = match type (config (app w)), t with
       | simple, simple | apartment, apartment | bank, bank => customDuration (app w)
       | _, bank => 30
       | _, _ => 15
       end.
Proof.
  intros Hw w'. destruct (reachable_app w Hw) as [Ha Hk].
  pose proof (timersTracked_cleared _ (appReachable_tracked _ Ha)) as Hclr.
  set (a := handleConfigChange n t (app w)).
  assert (Ha' : a = {| config := mkConfig n t; resetKey := (resetKey (app w) + 1)%nat;
                       isQuaking := false; quakePower := quakePower (app w);
                       isPaused := false; customDuration := customDuration (app w);
                       timeoutRef := timeoutRef (app w);
                       pWaveTimeoutRef := pWaveTimeoutRef (app w);
                       audioContextRef := None; timers := ∅;
                       nextTimer := nextTimer (app w);
                       hasAudioContext := hasAudioContext (app w) |}).
  { subst a. unfold handleConfigChange. rewrite handleRebuild_eq. cbn.
    now rewrite Hclr. }
  assert (Hstep : appStep (ClickConfig n t) (app w) = typeEffect (type (config (app w))) a)
    by reflexivity.
  assert (Hfields :
    config (typeEffect (type (config (app w))) a) = mkConfig n t
    /\ isQuaking (typeEffect (type (config (app w))) a) = false
    /\ isPaused (typeEffect (type (config (app w))) a) = false
    /\ audioContextRef (typeEffect (type (config (app w))) a) = None
    /\ timers (typeEffect (type (config (app w))) a) = ∅
    /\ resetKey (typeEffect (type (config (app w))) a) = S (resetKey (app w))
    /\ customDuration (typeEffect (type (config (app w))) a)
       = match type (config (app w)), t with
         | simple, simple | apartment, apartment | bank, bank => customDuration (app w)
         | _, bank => 30
         | _, _ => 15
         end).
  { rewrite Ha'. unfold typeEffect. cbn [config type].
    replace (resetKey (app w) + 1)%nat with (S (resetKey (app w))) by lia.
    destruct (type (config (app w))), t; repeat split. }
  destruct Hfields as (H1 & H2 & H3 & H4 & H5 & H6 & H7).
  assert (Hw' : w' = mkWorld (typeEffect (type (config (app w))) a) mountFloor
                      (S (resetKey (app w)))).
  { subst w'. cbn [worldStep]. rewrite Hstep. unfold render. cbn [app mountedKey floor].
    rewrite H6, Hk.
    replace (Nat.eqb (S (resetKey (app w))) (resetKey (app w))) with false
      by (symmetry; apply Nat.eqb_neq; lia).
    reflexivity. }
  rewrite Hw'. cbn [app floor]. repeat split; assumption.
Qed.

Lemma config_change_rebuilds_witness :
  isQuaking (app (worldStep (H := smallAngles) (UI (ClickConfig 12 apartment)) sWaveWorld))
  = false
  /\ customDuration
       (app (worldStep (H := smallAngles) (UI (ClickConfig 12 apartment)) sWaveWorld))
     = 15.
Proof.
  destruct (config_change_rebuilds (H := smallAngles) 12 apartment sWaveWorld)
    as (_ & Hq & _ & _ & _ & _ & _ & Hd).
  - repeat constructor.
  - split; [exact Hq | exact Hd].
Defined.

(** * The sound of the quake *)

(** The counters below [iterations bufferSize] are the counters that pass
    the test [i < bufferSize] of the loop. *)
Lemma iterations_spec (bufferSize : Q) (i : nat) :
  (i < iterations bufferSize)%nat <-> num i < bufferSize.
Proof.
  unfold iterations, num. split.
  - intros Hi.
    assert (Hz : (Z.of_nat i < Qceiling bufferSize)%Z) by lia.
    apply Qle_lt_trans with (inject_Z (Qceiling bufferSize - 1)).
    + rewrite <- Zle_Qle. lia.
    + apply Qceiling_lt.
  - intros Hi.
    assert (Hz : (Z.of_nat i < Qceiling bufferSize)%Z).
    { rewrite Zlt_Qlt. eapply Qlt_le_trans; [exact Hi | apply Qle_ceiling]. }
    lia.
Qed.

Section Sound.
Context `{Float32}.
Variable random : nat -> Q.
Hypothesis fround_monotone : forall x y, x <= y -> Math_fround x <= Math_fround y.
Hypothesis fround_1 : Math_fround 1 == 1.
Hypothesis fround_m1 : Math_fround (-1) == -1.
Hypothesis fround_35 : Math_fround 3.5 == 3.5.
Hypothesis fround_m35 : Math_fround (-3.5) == -3.5.
Hypothesis random_range : forall i, 0 <= random i < 1.

Lemma fround_unit x : -1 <= x <= 1 -> -1 <= Math_fround x <= 1.
Proof.
  intros [Hlo Hhi].
  pose proof (fround_monotone _ _ Hlo). pose proof (fround_monotone _ _ Hhi).
  split; lra.
Qed.

Lemma fround_gain x : -1 <= x <= 1 -> -3.5 <= Math_fround (x * 3.5) <= 3.5.
Proof.
  intros [Hlo Hhi].
  assert (Hlo' : -3.5 <= x * 3.5) by lra. assert (Hhi' : x * 3.5 <= 3.5) by lra.
  pose proof (fround_monotone _ _ Hlo'). pose proof (fround_monotone _ _ Hhi').
  split; lra.
Qed.

Lemma noiseStep_invariant i st :
  noiseInvariant i st ->
  noiseInvariant (S i) (noiseStep random i st)
  /\ length (fst (noiseStep random i st)) = length (fst st).
Proof.
  destruct st as [data lastOut]. unfold noiseInvariant, noiseStep. cbn [fst snd].
  intros [Hdata Hlast].
  rewrite !length_insert. split; [|reflexivity].
  destruct (lt_dec i (length data)) as [Hin | Hout].
  - (* the counter is inside the array *)
    destruct lastOut as [l|]; [|lia].
    cbn [fmap option_fmap option_map].
    rewrite list_lookup_insert_eq by exact Hin. cbn [mjoin option_join].
    pose proof (random_range i) as Hr.
    assert (Hv : -1 <= (l + 0.02 * (random i * 2 - 1)) / 1.02 <= 1).
    { split.
      - apply Qle_shift_div_l; [reflexivity | lra].
      - apply Qle_shift_div_r; [reflexivity | lra]. }
    apply fround_unit in Hv. split; [|exact Hv].
    rewrite list_insert_insert_eq.
    apply Forall_insert; [exact Hdata|].
    eexists. split; [reflexivity|]. now apply fround_gain.
  - (* the counter has passed the end: the stores are ignored *)
    assert (Hlen : (length data <= i)%nat) by lia.
    rewrite (list_insert_ge data i) by exact Hlen.
    rewrite (lookup_ge_None_2 data i) by exact Hlen. cbn [mjoin option_join fmap option_fmap option_map].
    rewrite (list_insert_ge data i) by exact Hlen.
    split; [exact Hdata | lia].
Qed.

Lemma noiseLoop_invariant n i st :
  noiseInvariant i st ->
  let st' := fold_left (fun st i => noiseStep random i st) (seq i n) st in
  noiseInvariant (i + n) st' /\ length (fst st') = length (fst st).
Proof.
  revert i st. induction n as [|n IH]; intros i st Hst; cbn [seq fold_left].
  - rewrite Nat.add_0_r. now split.
  - destruct (noiseStep_invariant i st Hst) as [Hstep Hlen].
    destruct (IH (S i) _ Hstep) as [Hinv Hlen'].
    rewrite Nat.add_succ_r. split; [exact Hinv | congruence].
Qed.

End Sound.

(** X7.  The rumble is bounded.  Whatever [bufferSize] is, whole or not,
    and whatever length the buffer has, when every [Math.random()] lies in
    [0, 1) and the store into the [Float32Array] rounds monotonically and
    keeps 1, -1, 3.5 and -3.5, the loop of [playEarthquakeSound] runs for the
    counters below [bufferSize], leaves the length of the channel data as it
    was, and leaves in every cell a number between -3.5 and 3.5, never
    [NaN]; and for every power the plateau of the gain envelope lies in
    [0, 0.8]. *)
Theorem earthquake_sound_bounded `{Float32} (bufferSize : Q) (length : nat)
    (random : nat -> Q) :
  (forall x y, x <= y -> Math_fround x <= Math_fround y) ->
  Math_fround 1 == 1 -> Math_fround (-1) == -1 ->
  Math_fround 3.5 == 3.5 -> Math_fround (-3.5) == -3.5 ->
  (forall i, 0 <= random i < 1) ->
  (forall i, (i < iterations bufferSize)%nat <-> num i < bufferSize)
  /\ List.length (brownNoise bufferSize length random) = length
  /\ Forall (fun cell => exists x, cell = Some x /\ -3.5 <= x <= 3.5)
       (brownNoise bufferSize length random)
  /\ forall duration power, 0 <= volume (soundOf duration power) <= 0.8.
Proof.
  intros Hmono H1 Hm1 H35 Hm35 Hrandom.
  split; [intros i; apply iterations_spec|].
  assert (Hinit : noiseInvariant 0 (replicate length (Some 0), Some 0)).
  { split; cbn [fst snd]; [|lra].
    apply Forall_replicate. eexists. split; [reflexivity | lra]. }
  destruct (noiseLoop_invariant random Hmono H1 Hm1 H35 Hm35 Hrandom
              (iterations bufferSize) 0 _ Hinit) as [[Hcells _] Hlen].
  cbn [fst] in Hlen. rewrite length_replicate in Hlen.
  split; [exact Hlen|]. split; [exact Hcells|].
  intros duration power. cbn [soundOf volume]. split.
  - apply Q.min_glb; [|lra].
    assert (0 <= power * power) by nra. lra.
  - apply Q.le_min_r.
Qed.

Lemma fixedPoint_monotone x y :
  x <= y -> Math_fround (Float32 := fixedPoint) x <= Math_fround (Float32 := fixedPoint) y.
Proof.
  intros Hxy. cbn [Math_fround fixedPoint].
  apply Qmult_le_compat_r; [|discriminate].
  rewrite <- Zle_Qle. apply Qfloor_resp_le. lra.
Qed.

Lemma earthquake_sound_bounded_witness :
  Forall (fun cell => exists x, cell = Some x /\ -3.5 <= x <= 3.5)
    (brownNoise (H := fixedPoint) 3.5 3 (fun i => if Nat.even i then 0.999 else 0)).
Proof.
  apply (earthquake_sound_bounded (H := fixedPoint) 3.5 3 (fun i => if Nat.even i then 0.999 else 0)).
  - exact fixedPoint_monotone.
  - reflexivity.
  - reflexivity.
  - reflexivity.
  - reflexivity.
  - intros i. destruct (Nat.even i); lra.
Defined.

(** * Where the generated bodies lie *)

Lemma num_lt (a b : nat) : (a < b)%nat -> num a + 1 <= num b.
Proof.
  intros Hl. unfold num, Qle, Qplus. cbn. lia.
Qed.

(** Orders two loop counters and records what the order says of them as
    numbers. *)
Ltac order_counters x x' :=
  let Hlt := fresh "Hlt" in
  let Heq := fresh "Heq" in
  destruct (Nat.lt_trichotomy x x') as [Hlt | [Heq | Hlt]];
  [ apply num_lt in Hlt | subst x' | apply num_lt in Hlt ].

Ltac unfold_dimensions :=
  unfold apartBy, clearBy;
  cbn [position args];
  unfold WALL_LENGTH_BANK_VISUAL, WALL_LENGTH_APT in *;
  unfold PILLAR_HEIGHT, SLAB_HEIGHT, PILLAR_WIDTH_SIMPLE, SLAB_WIDTH_SIMPLE,
    OFFSET_SIMPLE, PILLAR_WIDTH_APARTMENT, GRID_SIZE, BANK_GRID, PILLAR_WIDTH_BANK,
    PILLAR_PHYSICS_WIDTH_BANK, BEAM_HEIGHT_KINDA_BIG, GAP, WALL_THICKNESS,
    WINDOW_THICKNESS, Qdiv in *;
  cbn [Qinv Qnum Qden] in *.

(** Settles a pair of elements of one story: a slab and a support are
    left as they are; any other two are apart on some axis. *)
Ltac settle_clear :=
  first [ right; left; split; reflexivity
        | right; right; split; reflexivity
        | left; unfold_dimensions; lra ].

(** Settles a pair of elements of a grid: the same element twice is no
    pair. *)
Ltac settle_pair Hneq :=
  lazymatch type of Hneq with
  | mkBox (Some (mkKey _ _ ?x ?z)) _ _ _ _ _ _ _ _ _
    <> mkBox (Some (mkKey _ _ ?x' ?z')) _ _ _ _ _ _ _ _ _ =>
      order_counters x x'; order_counters z z';
      try (now elim Hneq); try congruence;
      settle_clear
  end.

Lemma StoryApartment_clear level yPos roomsX roomsZ a b :
  In a (StoryApartment level yPos roomsX roomsZ) ->
  In b (StoryApartment level yPos roomsX roomsZ) ->
  a <> b ->
  apartBy 0.02 a b
  \/ (role a = Some Slab /\ isSupport b = true)
  \/ (role b = Some Slab /\ isSupport a = true).
Proof.
  unfold StoryApartment. cbv zeta. intros Ha Hb.
  in_story Ha; in_story Hb; subst a b; intros Hneq.
  all: settle_pair Hneq.
Qed.

Lemma StoryBank_clear level yPos a b :
  In a (StoryBank level yPos) -> In b (StoryBank level yPos) ->
  a <> b ->
  apartBy 0.02 a b
  \/ (role a = Some Slab /\ isSupport b = true)
  \/ (role b = Some Slab /\ isSupport a = true).
Proof.
  unfold StoryBank. cbv zeta. intros Ha Hb.
  in_story Ha; in_story Hb; subst a b; intros Hneq.
  all: settle_pair Hneq.
Qed.

Lemma StorySimple_clear level yPos a b :
  In a (StorySimple level yPos) -> In b (StorySimple level yPos) ->
  a <> b ->
  apartBy 0.02 a b
  \/ (role a = Some Slab /\ isSupport b = true)
  \/ (role b = Some Slab /\ isSupport a = true).
Proof.
  unfold StorySimple. cbv zeta. intros Ha Hb.
  in_story Ha; in_story Hb; subst a b; intros Hneq.
  all: try (now elim Hneq).
  all: settle_clear.
Qed.

Lemma getFloorY_S type i :
  getFloorY type (S i) = getFloorY type i + storyHeight type.
Proof.
  unfold getFloorY. rewrite seq_S, fold_left_app. cbn [fold_left].
  destruct type; reflexivity.
Qed.

Lemma getFloorY_le type i j : (i <= j)%nat -> getFloorY type i <= getFloorY type j.
Proof.
  induction 1 as [|j _ IH]; [apply Qle_refl|].
  rewrite getFloorY_S. destruct type; unfold storyHeight, PILLAR_HEIGHT,
    BEAM_HEIGHT_KINDA_BIG, SLAB_HEIGHT; lra.
Qed.

(** Where the elements of a story stand: pillars, walls and windows from
    the floor level of the story to the underside of its slab, the slab from
    there to the floor level of the next story, a debris cube a quarter above
    the floor level. *)
Lemma Story_vertical type i b :
  In b (Story type i) ->
  match role b with
  | Some Pillar | Some Wall | Some Window =>
      bottom b == getFloorY type i /\ top b == getFloorY type i + PILLAR_HEIGHT
  | Some Slab =>
      bottom b == getFloorY type i + PILLAR_HEIGHT
      /\ top b == getFloorY type (S i)
  | Some Debris =>
      bottom b == getFloorY type i + 0.25 /\ top b == getFloorY type i + 0.75
  | None => False
  end.
Proof.
  rewrite getFloorY_S.
  unfold Story. cbv zeta. cbn [getGridDimensions fst snd].
  destruct type; [unfold StorySimple | unfold StoryApartment | unfold StoryBank];
    cbv zeta; intros Hb; in_story Hb; subst b;
    unfold bottom, top, storyHeight; cbn [role geometry position args fst snd];
    unfold_dimensions; split; ring.
Qed.

Lemma Story_span type i b :
  In b (Story type i) ->
  getFloorY type i <= bottom b /\ top b <= getFloorY type (S i) /\ bottom b < top b.
Proof.
  intros Hb. apply Story_vertical in Hb. rewrite getFloorY_S in *.
  destruct (role b) as [[]|]; try contradiction; destruct Hb as [Hlo Hhi];
    rewrite Hlo, Hhi; destruct type; unfold storyHeight; unfold_dimensions;
    repeat split; lra.
Qed.

Lemma apart_vertically m a b :
  top a + m <= bottom b -> apartBy m a b /\ apartBy m b a.
Proof.
  unfold top, bottom, apartBy, clearBy.
  destruct (position a) as [[ax ay] az], (args a) as [[aw ah] ad],
    (position b) as [[bx by_] bz], (args b) as [[bw bh] bd].
  cbn [fst snd]. intros Hle. split; right; left; [left | right]; exact Hle.
Qed.

Lemma storyHeight_value type : storyHeight type == 3.9.
Proof. destruct type; reflexivity. Qed.

Lemma Story_clear type i a b :
  In a (Story type i) -> In b (Story type i) -> a <> b ->
  apartBy 0.02 a b
  \/ (role a = Some Slab /\ isSupport b = true)
  \/ (role b = Some Slab /\ isSupport a = true).
Proof.
  unfold Story. cbv zeta. cbn [getGridDimensions fst snd].
  destruct type;
    [apply StorySimple_clear | apply StoryApartment_clear | apply StoryBank_clear].
Qed.

(** Elements of two stories are apart along the vertical axis, but for
    the slab of a story and the supports that stand on it. *)
Lemma Stories_clear type i j a b :
  (i < j)%nat -> In a (Story type i) -> In b (Story type j) ->
  (apartBy 0.02 a b /\ apartBy 0.02 b a)
  \/ (j = S i /\ role a = Some Slab /\ isSupport b = true).
Proof.
  intros Hij Ha Hb.
  pose proof (Story_vertical type i a Ha) as Hva.
  pose proof (Story_vertical type j b Hb) as Hvb.
  destruct (Story_span type j b Hb) as (Hbb & _ & _).
  pose proof (getFloorY_le type (S i) j Hij) as Hfloor.
  assert (HS : getFloorY type (S i) == getFloorY type i + storyHeight type)
    by (rewrite getFloorY_S; reflexivity).
  pose proof (storyHeight_value type) as Hh.
  unfold PILLAR_HEIGHT in *.
  destruct (role a) as [[]|] eqn:Hra; try contradiction; destruct Hva as [_ Hta];
    try (left; apply apart_vertically; lra).
  (* [a] is the slab of story [i] *)
  destruct (Nat.eq_dec j (S i)) as [-> | Hne].
  - unfold isSupport.
    destruct (role b) as [[]|] eqn:Hrb; try contradiction; destruct Hvb as [Hbot _];
      try (right; now repeat split);
      left; apply apart_vertically; lra.
  - left. apply apart_vertically.
    assert (Hj : (S (S i) <= j)%nat) by lia.
    pose proof (getFloorY_le type (S (S i)) j Hj) as Hfloor2.
    assert (HS2 : getFloorY type (S (S i)) == getFloorY type (S i) + storyHeight type)
      by (rewrite getFloorY_S; reflexivity).
    lra.
Qed.

(** ** No element is rendered twice *)

Lemma Story_labels_NoDup type i : NoDup (storyLabel <$> Story type i).
Proof.
  destruct type, i as [|i]; lazy; apply (bool_decide_unpack _); vm_compute; reflexivity.
Qed.

Lemma Story_NoDup type i : NoDup (Story type i).
Proof. exact (NoDup_fmap_1 storyLabel _ (Story_labels_NoDup type i)). Qed.

Lemma Stories_NoDup type L : NoDup (concat (map (Story type) (seq 0 L))).
Proof.
  induction L as [|L IH]; [constructor|].
  rewrite seq_S, map_app, concat_app. cbn [Nat.add map concat]. rewrite app_nil_r.
  apply NoDup_app. split; [exact IH|]. split; [|apply Story_NoDup].
  intros b Hlow Hhigh. apply list_elem_of_In in Hlow, Hhigh.
  apply in_concat in Hlow as (story & Hs & Hlow).
  apply in_map_iff in Hs as (j & <- & Hj). apply in_seq in Hj.
  destruct (Story_span type j b Hlow) as (_ & Htop & Hpos).
  destruct (Story_span type L b Hhigh) as (Hbot & _ & _).
  assert (HjL : (j < L)%nat) by lia.
  pose proof (getFloorY_le type (S j) L HjL). lra.
Qed.

Lemma generate_NoDup type n : NoDup (generate type n).
Proof. apply Stories_NoDup. Qed.

(** X8.  The bodies that [Building] hands to the physics engine are kept
    clear of one another.  For every structure type and every number of
    stories, any two entries of the generated list are different bodies, and
    their boxes are at least 0.02 apart along one of the three axes, unless
    one is a slab and the other a pillar, wall or window of the story of the
    slab, which carries it, or of the next story, which stands on it. *)
Theorem bodies_keep_clear type n j k a b :
  j <> k ->
  generate type n !! j = Some a ->
  generate type n !! k = Some b ->
  a <> b
  /\ (apartBy 0.02 a b
      \/ exists i, slabAndSupport type i a b \/ slabAndSupport type i b a).
Proof.
  intros Hjk Ha Hb.
  assert (Hneq : a <> b).
  { intros <-. apply Hjk. exact (NoDup_lookup _ _ _ _ (generate_NoDup type n) Ha Hb). }
  split; [exact Hneq|].
  apply list_elem_of_lookup_2, list_elem_of_In, In_generate in Ha as (ia & _ & Ha).
  apply list_elem_of_lookup_2, list_elem_of_In, In_generate in Hb as (ib & _ & Hb).
  destruct (Nat.lt_trichotomy ia ib) as [Hlt | [<- | Hlt]].
  - destruct (Stories_clear type ia ib a b Hlt Ha Hb) as [[Hab _] | (-> & Hs & Hp)];
      [now left|].
    right. exists ia. left. repeat split; auto.
  - destruct (Story_clear type ia a b Ha Hb Hneq) as [Hab | [[Hs Hp] | [Hs Hp]]];
      [now left | |].
    + right. exists ia. left. repeat split; auto.
    + right. exists ia. right. repeat split; auto.
  - destruct (Stories_clear type ib ia b a Hlt Hb Ha) as [[_ Hab] | (-> & Hs & Hp)];
      [now left|].
    right. exists ib. right. repeat split; auto.
Qed.

Lemma bodies_keep_clear_witness :
  exists a b,
    generate simple 2 !! 0%nat = Some a /\ generate simple 2 !! 9%nat = Some b
    /\ a <> b
    /\ (apartBy 0.02 a b
        \/ exists i, slabAndSupport simple i a b \/ slabAndSupport simple i b a).
Proof.
  do 2 eexists. split; [reflexivity|]. split; [reflexivity|].
  apply (bodies_keep_clear simple 2 0 9); [lia | reflexivity | reflexivity].
Defined.

(** X10. React keys.  The elements of a simple story carry no key; in an
    apartment or bank story every element carries a key, the key names the
    level of the story, and no two elements of the story share a key. *)
Theorem story_keys_unique i :
  (forall b, In b (Story simple i) -> key b = None)
  /\ (forall type b, type <> simple -> In b (Story type i) ->
        exists k, key b = Some k /\ keyLevel k = i)
  /\ NoDup (key <$> Story apartment i)
  /\ NoDup (key <$> Story bank i).
Proof.
  split; [|split; [|split]].
  - unfold Story. cbv zeta. unfold StorySimple. intros b Hb. in_story Hb; subst b; reflexivity.
  - intros type b Hty. unfold Story. cbv zeta. cbn [getGridDimensions fst snd].
    destruct type; [contradiction | unfold StoryApartment | unfold StoryBank];
      cbv zeta; intros Hb; in_story Hb; subst b; eexists; split; reflexivity.
  - apply (NoDup_fmap_1 (fmap (fun k => (prefix k, keyX k, keyZ k)))).
    destruct i as [|i]; lazy; apply (bool_decide_unpack _); vm_compute; reflexivity.
  - apply (NoDup_fmap_1 (fmap (fun k => (prefix k, keyX k, keyZ k)))).
    destruct i as [|i]; lazy; apply (bool_decide_unpack _); vm_compute; reflexivity.
Qed.

(** * The range of the shaking *)

Lemma clearedTimers_Some ref (t : gmap positive Timer) id x :
  clearedTimers ref t !! id = Some x -> t !! id = Some x.
Proof.
  rewrite clearedTimers_lookup. destruct (decide (ref = Some id)); [discriminate | auto].
Qed.

Lemma onClickArgs_power b s : 0.5 <= snd (onClickArgs b s) <= 1.4.
Proof. destruct b; cbn; lra. Qed.

Lemma powerInRange_cleared s id d power sWaveDuration :
  powerInRange s ->
  clearedTimers (pWaveTimeoutRef s) (clearedTimers (timeoutRef s) (timers s)) !! id
    = Some (mkTimer d (startSWave power sWaveDuration)) ->
  0.5 <= power <= 1.4.
Proof.
  intros [_ Hs] Hid. do 2 apply clearedTimers_Some in Hid. exact (Hs _ _ _ _ Hid).
Qed.

Lemma handleEarthquake_powerInRange duration power r s :
  0.5 <= power <= 1.4 -> powerInRange s ->
  powerInRange (handleEarthquake duration power r s).
Proof.
  intros Hp Hs.
  destruct (type (config s)) eqn:Hty, (Qle_bool 1.4 power) eqn:Hle;
    try (rewrite handleEarthquake_single by (rewrite Hty; auto || (left; discriminate));
         split; cbn; [exact Hp|];
         intros id d p sd Hid;
         apply lookup_insert_Some in Hid as [[_ [=]] | [_ Hid]];
         exact (powerInRange_cleared _ _ _ _ _ Hs Hid)).
  rewrite handleEarthquake_split by assumption.
  split; cbn; [lra|].
  intros id d p sd Hid.
  apply lookup_insert_Some in Hid as [[_ [=]] | [_ Hid]].
  apply lookup_insert_Some in Hid as [[_ [= _ <- _]] | [_ Hid]]; [exact Hp|].
  exact (powerInRange_cleared _ _ _ _ _ Hs Hid).
Qed.

Lemma powerInRange_shrink s s' :
  quakePower s' = quakePower s ->
  (forall id t, timers s' !! id = Some t -> timers s !! id = Some t) ->
  powerInRange s -> powerInRange s'.
Proof.
  intros Hw Ht [Hp Hs]. split; [now rewrite Hw|].
  intros id d p sd Hid. exact (Hs _ _ _ _ (Ht _ _ Hid)).
Qed.

Lemma fireTimer_powerInRange id s : powerInRange s -> powerInRange (fireTimer id s).
Proof.
  intros Hs. rewrite fireTimer_eq.
  destruct (timers s !! id) as [[d [p sd|]]|] eqn:Hid; [| |exact Hs].
  - split; cbn.
    + exact (proj2 Hs _ _ _ _ Hid).
    + intros j dj pj sdj Hj. apply lookup_delete_Some in Hj as [_ Hj].
      exact (proj2 Hs _ _ _ _ Hj).
  - revert Hs. apply powerInRange_shrink; [reflexivity|].
    cbn. intros j t Hj. now apply lookup_delete_Some in Hj as [_ Hj].
Qed.

Lemma powerInRange_step e s : powerInRange s -> powerInRange (appStep e s).
Proof.
  intros Hs. destruct e as [n t | | | b r | v | id]; cbn [appStep].
  - assert (Hr : powerInRange (handleConfigChange n t s)).
    { revert Hs. unfold handleConfigChange. rewrite handleRebuild_eq.
      apply powerInRange_shrink; [reflexivity|].
      cbn. intros j x Hj. now do 2 apply clearedTimers_Some in Hj. }
    destruct (typeEffect_eq (type (config s)) (handleConfigChange n t s))
      as [-> | [d ->]]; [exact Hr|].
    revert Hr. now apply powerInRange_shrink.
  - revert Hs. rewrite handleRebuild_eq. apply powerInRange_shrink; [reflexivity|].
    cbn. intros j x Hj. now do 2 apply clearedTimers_Some in Hj.
  - revert Hs. now apply powerInRange_shrink.
  - unfold clickQuake. destruct (rendered b s && negb (disabled b s)); [|exact Hs].
    pose proof (onClickArgs_power b s) as Hp.
    destruct (onClickArgs b s) as [duration power].
    now apply handleEarthquake_powerInRange.
  - revert Hs. now apply powerInRange_shrink.
  - now apply fireTimer_powerInRange.
Qed.

Lemma appReachable_powerInRange s : appReachable s -> powerInRange s.
Proof.
  induction 1 as [audio | e s Hs IH]; [|now apply powerInRange_step].
  split; cbn; [lra|]. intros id d p sd Hid. now rewrite lookup_empty in Hid.
Qed.

Lemma clampedAngles_bounded :
  (forall x, -1 <= Math_sin (JsMath := clampedAngles) x <= 1)
  /\ (forall x, -1 <= Math_cos (JsMath := clampedAngles) x <= 1).
Proof.
  split; intros x; cbn.
  - split; [apply Q.le_max_l|].
    apply Q.max_lub; [lra | apply Q.le_min_l].
  - lra.
Qed.

(** A product of a factor between -1 and 1 with an amplitude stays within
    the amplitude. *)
Lemma wave_bounded (s a : Q) : -1 <= s <= 1 -> 0 <= a -> - a <= s * a <= a.
Proof.
  intros [Hlo Hhi] Ha.
  assert (H1 : 0 <= (1 - s) * a) by (apply Qmult_le_0_compat; lra).
  assert (H2 : 0 <= (s + 1) * a) by (apply Qmult_le_0_compat; lra).
  split; lra.
Qed.

(** A noise term [(random - 0.5) * factor] stays within half the factor. *)
Lemma noise_bounded (r a : Q) : 0 <= r < 1 -> 0 <= a -> - (0.5 * a) <= (r - 0.5) * a <= 0.5 * a.
Proof.
  intros [Hlo Hhi] Ha.
  assert (H1 : 0 <= (1 - r) * a) by (apply Qmult_le_0_compat; lra).
  assert (H2 : 0 <= r * a) by (apply Qmult_le_0_compat; lra).
  split; lra.
Qed.

(** X11. How far the floor moves.  In every state the application can
    reach the shaking power lies between 0.5 and 1.4, and a frame drawn
    there, on a host whose sine and cosine stay within -1 and 1 and whose
    random numbers lie in [0, 1), puts the floor within 1.3 times the power
    of its rest position along x and z and within 0.55 times the power
    along y. *)
Theorem floor_excursion_bounded `{JsMath} (w : World) (i : FrameInput) :
  (forall x, -1 <= Math_sin x <= 1) ->
  (forall x, -1 <= Math_cos x <= 1) ->
  reachable w ->
  0 <= random1 i < 1 -> 0 <= random2 i < 1 -> 0 <= random3 i < 1 ->
  let power := quakePower (app w) in
  0.5 <= power <= 1.4
  /\ Qabs (floorX (floor (worldStep (Frame i) w))) <= 1.3 * power
  /\ Qabs (floorY (floor (worldStep (Frame i) w)) + 1.1) <= 0.55 * power
  /\ Qabs (floorZ (floor (worldStep (Frame i) w))) <= 1.3 * power.
Proof.
  intros Hsin Hcos Hw H1 H2 H3 power.
  assert (Hp : 0.5 <= power <= 1.4).
  { apply reachable_app in Hw as [Hw _]. exact (proj1 (appReachable_powerInRange _ Hw)). }
  split; [exact Hp|].
  unfold floorX, floorY, floorZ. cbn [worldStep floor]. unfold Floor_useFrame.
  fold power. destruct (isQuaking (app w)); cbv zeta; cbn [floorPosition fst snd].
  - unfold intensityX, intensityY, noiseFactor, verticalNoiseFactor.
    set (t := timeRef (floor w) + frameDelta i * 25).
    pose proof (wave_bounded (Math_sin t) power (Hsin _) ltac:(lra)).
    pose proof (wave_bounded (Math_cos (t * 0.9)) power (Hcos _) ltac:(lra)).
    pose proof (wave_bounded (Math_sin (t * 1.5)) power (Hsin _) ltac:(lra)).
    pose proof (noise_bounded (random1 i) power H1 ltac:(lra)).
    pose proof (noise_bounded (random2 i) power H2 ltac:(lra)).
    pose proof (noise_bounded (random3 i) power H3 ltac:(lra)).
    repeat split; apply Qabs_Qle_condition; split; lra.
  - repeat split; apply Qabs_Qle_condition; split; lra.
Qed.

Lemma floor_excursion_bounded_witness :
  reachable (H := clampedAngles) quakingWorld
  /\ isQuaking (app quakingWorld) = true
  /\ Qabs (floorX (floor (worldStep (H := clampedAngles)
                              (Frame (mkFrame 0.016 0.1 0.2 0.3)) quakingWorld)))
     <= 1.3 * 1.
Proof.
  split; [apply (reachable_step (H := clampedAngles)), (reachable_initial (H := clampedAngles))|].
  split; [reflexivity|].
  refine (proj1 (proj2 (floor_excursion_bounded (H := clampedAngles) quakingWorld
            (mkFrame 0.016 0.1 0.2 0.3)
            (proj1 clampedAngles_bounded) (proj2 clampedAngles_bounded) _ _ _ _)));
    [apply (reachable_step (H := clampedAngles)), (reachable_initial (H := clampedAngles))
    | cbn; lra ..].
Defined.

(** * The drag provider *)

Section DragProvider.
Context `{Three}.

(** X12. The drag provider.  In every state the provider can reach, the
    orbit controls are enabled exactly when nothing is dragged, and the cursor
    constraint is mounted exactly while something is; a pointer-up always
    ends the drag, whatever the state, and leaves the vectors and the
    meshes alone; and a frame changes neither the drag state nor the orbit
    controls. *)
Theorem drag_provider_consistent w :
  dragReachable w ->
  (orbitEnabled w = true <-> dragState w = None)
  /\ (cursorConstraint w = None <-> dragState w = None)
  /\ (forall cam,
        dragStep (PointerUp cam) w
        = mkDrag (heap w) (nextLoc w) (objects w) None true None)
  /\ (forall cam e, exists d,
        dragState (dragStep (PointerDown cam e) w) = Some d
        /\ ref d = default (object e) (childRef e)
        /\ orbitEnabled (dragStep (PointerDown cam e) w) = false)
  /\ (forall i,
        dragState (dragStep (DragTick i) w) = dragState w
        /\ orbitEnabled (dragStep (DragTick i) w) = orbitEnabled w).
Proof.
  intros Hw. destruct (dragReachable_consistent w Hw) as [Ho Hc].
  split; [exact Ho|]. split; [exact Hc|]. split; [intros cam; apply pointerUp_fields|]. split.
  - intros cam e.
    destruct (pointerDown_session cam e w) as ((Hd & _) & Hor & _).
    eexists. split; [exact Hd|]. split; [reflexivity | exact Hor].
  - intros i. cbn [dragStep]. destruct (dragFrame_fields i w) as (Hd & Hor & _).
    now split.
Qed.

End DragProvider.

Lemma drag_provider_consistent_witness :
  dragReachable (H := unrotated)
    (dragStep (H := unrotated) (PointerDown (H := unrotated) (35, 25, 35) hitSlab) oneSlab)
  /\ (orbitEnabled
        (dragStep (H := unrotated) (PointerDown (H := unrotated) (35, 25, 35) hitSlab) oneSlab)
      = true
      <-> dragState
            (dragStep (H := unrotated) (PointerDown (H := unrotated) (35, 25, 35) hitSlab)
               oneSlab)
          = None).
Proof.
  assert (Hr : dragReachable (H := unrotated)
                 (dragStep (H := unrotated)
                    (PointerDown (H := unrotated) (35, 25, 35) hitSlab) oneSlab)).
  { apply (dragReachable_step (H := unrotated)), (dragReachable_initial (H := unrotated)). }
  split; [exact Hr|].
  exact (proj1 (drag_provider_consistent (H := unrotated) _ Hr)).
Defined.
